(** * Manhole: a shallow embedding of [manhole.py] and its specification

    The program is one pygame loop: poll the keyboard events, advance the
    simulation by one tick, draw.  The simulation is embedded first; the
    drawing code, which reads the state and never writes it, and
    [player_rect] follow in a part of their own.

    Conventions of the embedding.
    - Python integers are [Z]; list positions produced by [enumerate] over
      the pedestrian list are [nat].
    - The layout constants [SCREEN_WIDTH * 0.30] and [SCREEN_WIDTH * 0.70]
      are the floats 240.0 and 560.0 and [MANHOLE_COLLISION_WIDTH / 2] is
      25.0; every comparison of the simulation is between such integral
      values and the integer fields of a [pygame.Rect], so they are
      embedded as integers.
    - A [pygame.Rect] stores integers.  What [ped_rect.x += PEDESTRIAN_SPEED]
      (a float, 1.5) leaves in [x] is decided by pygame, not by this
      program: it is the section variable [rect_move].  [pygame_rect_move]
      is pygame's conversion (rounding to the nearest integer, a half
      away from zero) and is used in the examples.
    - [random.randint] and [random.choice] read an entropy source, the
      section variable [entropy], at a cursor kept in the state.
    - The pedestrian's vertical placement is a function of its row and is
      read by the drawing code only; it is left out, and so are the
      debugging [print]s.  [player_rect] is written by the event handling
      and read by the drawing code only: it is kept apart from the global
      variables of the simulation, in [Display]. *)

From stdpp Require Import base numbers list sorting gmap sets.
From Stdlib Require Import ZArith Lia.

Local Open Scope Z_scope.

(** ** Constants *)

Definition SCREEN_WIDTH : Z := 800.
Definition MANHOLE_CENTERS_X : list Z :=
  [SCREEN_WIDTH * 30 / 100; SCREEN_WIDTH * 70 / 100].
Definition PATH_ROWS : list Z := [0; 1].
Definition MANHOLE_COLLISION_WIDTH : Z := 50.
Definition PEDESTRIAN_WIDTH : Z := 20.
Definition PEDESTRIAN_SPAWN_RATE_MIN : Z := 200.
Definition PEDESTRIAN_SPAWN_RATE_MAX : Z := 400.

(** [len(MANHOLE_CENTERS_X)] and [len(PATH_CENTERS_Y)]. *)
Definition len_MANHOLE_CENTERS_X : Z := Z.of_nat (length MANHOLE_CENTERS_X).
Definition len_PATH_CENTERS_Y : Z := Z.of_nat (length PATH_ROWS).

(** ** Data *)

Inductive Key :=
  | K_LEFT | K_a | K_RIGHT | K_d | K_UP | K_w | K_DOWN | K_s | K_r | K_other.

Inductive Event :=
  | QUIT
  | KEYDOWN (key : Key)
  | OTHER_EVENT.

(** One entry of [pedestrians]:
    [{'rect': Rect, 'row': 0 or 1, 'scored_at_indices': set()}]. *)
Record Pedestrian := mkPedestrian {
  rect_x : Z;
  row : Z;
  scored_at_indices : gset (Z * Z)
}.

(** [Rect.left], [Rect.right] and [Rect.centerx] of a pedestrian. *)
Definition rect_left (p : Pedestrian) : Z := rect_x p.
Definition rect_right (p : Pedestrian) : Z := rect_x p + PEDESTRIAN_WIDTH.
Definition rect_centerx (p : Pedestrian) : Z := rect_x p + PEDESTRIAN_WIDTH / 2.

(** The module's global variables, the loop flag [running] and the cursor
    into the entropy source. *)
Record Game := mkGame {
  score : Z;
  lives : Z;
  player_row_index : Z;
  player_col_index : Z;
  pedestrians : list Pedestrian;
  game_over : bool;
  spawn_timer : Z;
  next_spawn_delay : Z;
  running : bool;
  rng_pos : nat
}.

(** The variables the pedestrian loop writes: [score], [lives] and
    [pedestrians_to_remove_indices]. *)
Record Counters := mkCounters {
  c_score : Z;
  c_lives : Z;
  c_remove : list nat
}.

(** ** The random module *)

Definition random_randint (a b : Z) (u : nat) : Z :=
  a + Z.of_nat u mod (b - a + 1).

Definition random_choice (l : list Z) (u : nat) : Z :=
  nth (u mod length l)%nat l 0.

(** pygame's conversion of a float, given in halves, to an integer field:
    the nearest integer, a half going away from zero. *)
Definition pygame_round_halves (h : Z) : Z := Z.quot (h + Z.sgn h) 2.

(** pygame's conversion of the float [x + 1.5] to the integer field. *)
Definition pygame_rect_move (x : Z) : Z := pygame_round_halves (2 * x + 3).

(** [enumerate(l)], counting from [n]. *)
Fixpoint enumerate_from (n : Z) (l : list Z) : list (Z * Z) :=
  match l with
  | [] => []
  | v :: rest => (n, v) :: enumerate_from (n + 1) rest
  end.

Definition enumerate (l : list Z) : list (Z * Z) := enumerate_from 0 l.

(** [zone_left < ped_center_x < zone_right]. *)
Definition in_zone (manhole_x ped_center_x : Z) : bool :=
  let zone_left := manhole_x - MANHOLE_COLLISION_WIDTH / 2 in
  let zone_right := manhole_x + MANHOLE_COLLISION_WIDTH / 2 in
  (zone_left <? ped_center_x) && (ped_center_x <? zone_right).

(** ** Removal of the marked pedestrians *)

(** The order of [sorted(..., reverse=True)] on list positions. *)
Definition index_ge (a b : nat) : Prop := (b ≤ a)%nat.

#[global] Instance index_ge_dec : RelDecision index_ge.
Proof. intros a b. unfold index_ge. apply _. Defined.

(** [sorted(list(set(indices)), reverse=True)]. *)
Definition sorted_reverse_set (indices : list nat) : list nat :=
  merge_sort index_ge (remove_dups indices).

(** [if 0 <= index < len(pedestrians): del pedestrians[index]]. *)
Definition del_index {A} (l : list A) (index : nat) : list A :=
  if ((0 <=? index) && (index <? length l))%nat then delete index l else l.

Definition remove_pedestrians {A} (indices : list nat) (l : list A) : list A :=
  foldl del_index l (sorted_reverse_set indices).

Section Simulation.

(** The value [ped_rect.x] holds after [ped_rect.x += PEDESTRIAN_SPEED]. *)
Variable rect_move : Z → Z.
(** The entropy the random module consumes, one number per call. *)
Variable entropy : nat → nat.

(** ** Helper functions of the program *)

Definition create_pedestrian (u : nat) : Pedestrian :=
  let ped_row := random_choice [0; 1] u in
  {| rect_x := 0 - PEDESTRIAN_WIDTH;
     row := ped_row;
     scored_at_indices := ∅ |}.

Definition reset_game (g : Game) : Game :=
  {| score := 0;
     lives := 3;
     player_row_index := 0;
     player_col_index := 0;
     pedestrians := [];
     game_over := false;
     spawn_timer := 0;
     next_spawn_delay :=
       random_randint PEDESTRIAN_SPAWN_RATE_MIN PEDESTRIAN_SPAWN_RATE_MAX
         (entropy (rng_pos g));
     running := running g;
     rng_pos := S (rng_pos g) |}.

(** The state the module's top level builds before the loop starts: the
    global variables are initialised, then [reset_game()] is called. *)
Definition module_globals : Game :=
  {| score := 0;
     lives := 3;
     player_row_index := 0;
     player_col_index := 0;
     pedestrians := [];
     game_over := false;
     spawn_timer := 0;
     next_spawn_delay :=
       random_randint PEDESTRIAN_SPAWN_RATE_MIN PEDESTRIAN_SPAWN_RATE_MAX
         (entropy 0);
     running := true;
     rng_pos := 1 |}.

Definition initial_game : Game := reset_game module_globals.

(** ** Event handling *)

Definition set_player_col_index (g : Game) (v : Z) : Game :=
  {| score := score g; lives := lives g;
     player_row_index := player_row_index g;
     player_col_index := v;
     pedestrians := pedestrians g; game_over := game_over g;
     spawn_timer := spawn_timer g; next_spawn_delay := next_spawn_delay g;
     running := running g; rng_pos := rng_pos g |}.

Definition set_player_row_index (g : Game) (v : Z) : Game :=
  {| score := score g; lives := lives g;
     player_row_index := v;
     player_col_index := player_col_index g;
     pedestrians := pedestrians g; game_over := game_over g;
     spawn_timer := spawn_timer g; next_spawn_delay := next_spawn_delay g;
     running := running g; rng_pos := rng_pos g |}.

Definition set_running (g : Game) (v : bool) : Game :=
  {| score := score g; lives := lives g;
     player_row_index := player_row_index g;
     player_col_index := player_col_index g;
     pedestrians := pedestrians g; game_over := game_over g;
     spawn_timer := spawn_timer g; next_spawn_delay := next_spawn_delay g;
     running := v; rng_pos := rng_pos g |}.

Definition handle_keydown (key : Key) (g : Game) : Game :=
  if negb (game_over g) then
    match key with
    | K_LEFT | K_a =>
        set_player_col_index g
          ((player_col_index g - 1) mod len_MANHOLE_CENTERS_X)
    | K_RIGHT | K_d =>
        set_player_col_index g
          ((player_col_index g + 1) mod len_MANHOLE_CENTERS_X)
    | K_UP | K_w =>
        set_player_row_index g
          ((player_row_index g - 1) mod len_PATH_CENTERS_Y)
    | K_DOWN | K_s =>
        set_player_row_index g
          ((player_row_index g + 1) mod len_PATH_CENTERS_Y)
    | _ => g
    end
  else
    match key with
    | K_r => reset_game g
    | _ => g
    end.

Definition handle_event (g : Game) (event : Event) : Game :=
  match event with
  | QUIT => set_running g false
  | KEYDOWN key => handle_keydown key g
  | OTHER_EVENT => g
  end.

(** [for event in pygame.event.get(): ...]. *)
Definition handle_events (events : list Event) (g : Game) : Game :=
  foldl handle_event g events.

(** ** Game logic *)

(** Lines 170-174: the spawn timer. *)
Definition spawn (g : Game) : Game :=
  let timer := spawn_timer g + 1 in
  if next_spawn_delay g <=? timer then
    {| score := score g; lives := lives g;
       player_row_index := player_row_index g;
       player_col_index := player_col_index g;
       pedestrians :=
         pedestrians g ++ [create_pedestrian (entropy (rng_pos g))];
       game_over := game_over g;
       spawn_timer := 0;
       next_spawn_delay :=
         random_randint PEDESTRIAN_SPAWN_RATE_MIN PEDESTRIAN_SPAWN_RATE_MAX
           (entropy (S (rng_pos g)));
       running := running g;
       rng_pos := S (S (rng_pos g)) |}
  else
    {| score := score g; lives := lives g;
       player_row_index := player_row_index g;
       player_col_index := player_col_index g;
       pedestrians := pedestrians g; game_over := game_over g;
       spawn_timer := timer;
       next_spawn_delay := next_spawn_delay g;
       running := running g; rng_pos := rng_pos g |}.

(** Lines 190-213: the loop over the manhole columns for the pedestrian at
    list position [i], on row [ped_row], with centre [ped_center_x].  The
    result is the pedestrian's credited set, the counters and
    [fell_in_hole]. *)
Fixpoint check_manholes (pr pc : Z) (i : nat) (ped_row ped_center_x : Z)
    (cols : list (Z * Z)) (scored : gset (Z * Z)) (c : Counters)
    : gset (Z * Z) * Counters * bool :=
  match cols with
  | [] => (scored, c, false)
  | (current_col_index, manhole_x) :: rest =>
      if in_zone manhole_x ped_center_x then
        let is_covered := (ped_row =? pr) && (current_col_index =? pc) in
        if is_covered then
          let current_hole_tuple := (ped_row, current_col_index) in
          if (manhole_x <=? ped_center_x)
             && negb (bool_decide (current_hole_tuple ∈ scored))
          then
            check_manholes pr pc i ped_row ped_center_x rest
              ({[current_hole_tuple]} ∪ scored)
              {| c_score := c_score c + 1;
                 c_lives := c_lives c;
                 c_remove := c_remove c |}
          else
            check_manholes pr pc i ped_row ped_center_x rest scored c
        else
          (scored,
           {| c_score := c_score c;
              c_lives := c_lives c - 1;
              c_remove := c_remove c ++ [i] |},
           true)
      else
        check_manholes pr pc i ped_row ped_center_x rest scored c
  end.

(** Lines 180-218: the body of the loop over the pedestrians. *)
Definition process_pedestrian (pr pc : Z) (i : nat) (ped_data : Pedestrian)
    (c : Counters) : Pedestrian * Counters * bool :=
  let moved :=
    {| rect_x := rect_move (rect_x ped_data);
       row := row ped_data;
       scored_at_indices := scored_at_indices ped_data |} in
  let ped_center_x := rect_centerx moved in
  let '(scored, c1, fell_in_hole) :=
    check_manholes pr pc i (row ped_data) ped_center_x
      (enumerate MANHOLE_CENTERS_X) (scored_at_indices ped_data) c in
  let ped :=
    {| rect_x := rect_x moved; row := row moved;
       scored_at_indices := scored |} in
  if negb fell_in_hole && (SCREEN_WIDTH <? rect_left ped) then
    (ped,
     {| c_score := c_score c1 + 5;
        c_lives := c_lives c1;
        c_remove := c_remove c1 ++ [i] |},
     fell_in_hole)
  else (ped, c1, fell_in_hole).

(** [for i, ped_data in enumerate(pedestrians): ...], from position [i]. *)
Fixpoint move_pedestrians (pr pc : Z) (i : nat) (peds : list Pedestrian)
    (c : Counters) : list Pedestrian * Counters :=
  match peds with
  | [] => ([], c)
  | ped_data :: rest =>
      let '(ped, c1, _) := process_pedestrian pr pc i ped_data c in
      let '(rest', c2) := move_pedestrians pr pc (S i) rest c1 in
      (ped :: rest', c2)
  end.

(** Lines 168-228. *)
Definition game_logic (g : Game) : Game :=
  if negb (game_over g) then
    let g1 := spawn g in
    let '(peds, c) :=
      move_pedestrians (player_row_index g1) (player_col_index g1) 0
        (pedestrians g1)
        {| c_score := score g1; c_lives := lives g1; c_remove := [] |} in
    {| score := c_score c;
       lives := c_lives c;
       player_row_index := player_row_index g1;
       player_col_index := player_col_index g1;
       pedestrians := remove_pedestrians (c_remove c) peds;
       game_over := if c_lives c <=? 0 then true else game_over g1;
       spawn_timer := spawn_timer g1;
       next_spawn_delay := next_spawn_delay g1;
       running := running g1;
       rng_pos := rng_pos g1 |}
  else g.

(** One iteration of the main loop, drawing left out. *)
Definition frame (events : list Event) (g : Game) : Game :=
  game_logic (handle_events events g).

(** [while running: ...] over the event batches the host delivers. *)
Fixpoint main_loop (batches : list (list Event)) (g : Game) : Game :=
  match batches with
  | [] => g
  | events :: rest =>
      if running g then main_loop rest (frame events g) else g
  end.

(** The states the loop can be in at the top of an iteration. *)
Inductive Reachable : Game → Prop :=
  | Reachable_init : Reachable initial_game
  | Reachable_frame g events :
      Reachable g → running g = true → Reachable (frame events g).

End Simulation.

(** ** Vocabulary of the statements *)

Definition is_restart (event : Event) : bool :=
  match event with KEYDOWN K_r => true | _ => false end.

Definition is_quit (event : Event) : bool :=
  match event with QUIT => true | _ => false end.

(** The part of the state the simulation owns: everything but the loop
    flag [running]. *)
Definition same_simulation (g g' : Game) : Prop :=
  score g' = score g ∧ lives g' = lives g ∧
  player_row_index g' = player_row_index g ∧
  player_col_index g' = player_col_index g ∧
  pedestrians g' = pedestrians g ∧ game_over g' = game_over g ∧
  spawn_timer g' = spawn_timer g ∧
  next_spawn_delay g' = next_spawn_delay g ∧ rng_pos g' = rng_pos g.

Definition index_in_range (v : Z) : Prop := v = 0 ∨ v = 1.

(** The positions, counted from [i], of the flags that are set, and the
    entries of a list whose flag is not set. *)
Fixpoint flagged_indices (i : nat) (flags : list bool) : list nat :=
  match flags with
  | [] => []
  | f :: rest =>
      (if f then [i] else []) ++ flagged_indices (S i) rest
  end.

Fixpoint keep_unflagged {A} (flags : list bool) (l : list A) : list A :=
  match flags, l with
  | f :: flags', a :: l' =>
      if f then keep_unflagged flags' l' else a :: keep_unflagged flags' l'
  | _, _ => l
  end.

(** Whether every index the removal loop visits passes the range test
    [0 <= index < len(pedestrians)] on the list as it is at that moment. *)
Fixpoint guards_pass {A} (l : list A) (indices : list nat) : bool :=
  match indices with
  | [] => true
  | index :: rest =>
      ((0 <=? index) && (index <? length l))%nat
      && guards_pass (del_index l index) rest
  end.

(** The first column, in the order the loop visits them, whose collision
    zone holds the centre [x]. *)
Fixpoint find_zone (cols : list (Z * Z)) (x : Z) : option (Z * Z) :=
  match cols with
  | [] => None
  | (col, manhole_x) :: rest =>
      if in_zone manhole_x x then Some (col, manhole_x) else find_zone rest x
  end.

Definition zone_slot (x : Z) : option (Z * Z) :=
  find_zone (enumerate MANHOLE_CENTERS_X) x.

(** What the loop over the columns does, read off the slot the centre is
    in. *)
Definition slot_outcome (pr pc : Z) (i : nat) (ped_row x : Z)
    (scored : gset (Z * Z)) (c : Counters)
    : gset (Z * Z) * Counters * bool :=
  match zone_slot x with
  | None => (scored, c, false)
  | Some (col, manhole_x) =>
      if (ped_row =? pr) && (col =? pc) then
        if (manhole_x <=? x) && negb (bool_decide ((ped_row, col) ∈ scored))
        then ({[(ped_row, col)]} ∪ scored,
              {| c_score := c_score c + 1; c_lives := c_lives c;
                 c_remove := c_remove c |},
              false)
        else (scored, c, false)
      else (scored,
            {| c_score := c_score c; c_lives := c_lives c - 1;
               c_remove := c_remove c ++ [i] |},
            true)
  end.

Definition sum_Z (l : list Z) : Z := foldr Z.add 0 l.

Section Outcomes.

Variable rect_move : Z → Z.
(** [player_row_index] and [player_col_index], which the loop over the
    pedestrians reads and never writes. *)
Variables pr pc : Z.

(** The loop body measured from zeroed counters: what one pedestrian
    contributes, whatever the counters hold when its turn comes. *)
Definition outcome (p : Pedestrian) : Pedestrian * Counters * bool :=
  process_pedestrian rect_move pr pc 0 p
    {| c_score := 0; c_lives := 0; c_remove := [] |}.

Definition ped_next (p : Pedestrian) : Pedestrian := (outcome p).1.1.
Definition ped_fell (p : Pedestrian) : bool := (outcome p).2.
Definition score_gain (p : Pedestrian) : Z := c_score (outcome p).1.2.
Definition ped_marked (p : Pedestrian) : bool :=
  bool_decide (c_remove (outcome p).1.2 ≠ []).

(** The pedestrian after [ped_rect.x += PEDESTRIAN_SPEED], and its
    [ped_rect.centerx] then. *)
Definition walked (p : Pedestrian) : Pedestrian :=
  {| rect_x := rect_move (rect_x p); row := row p;
     scored_at_indices := scored_at_indices p |}.

Definition moved_center (p : Pedestrian) : Z :=
  rect_move (rect_x p) + PEDESTRIAN_WIDTH / 2.

(** The pedestrian after its move with the slot [(row, col)] credited. *)
Definition credited (col : Z) (p : Pedestrian) : Pedestrian :=
  {| rect_x := rect_move (rect_x p); row := row p;
     scored_at_indices := {[(row p, col)]} ∪ scored_at_indices p |}.

(** The pedestrians a tick leaves, out of the list [peds] it walks. *)
Definition survivors (peds : list Pedestrian) : list Pedestrian :=
  ped_next <$> filter (λ p, ped_marked p = false) peds.

(** How many pedestrians of [peds] fall in a tick, and what the list
    brings to the score. *)
Definition fallen (peds : list Pedestrian) : Z :=
  Z.of_nat (length (filter (λ p, ped_fell p = true) peds)).

Definition gained (peds : list Pedestrian) : Z :=
  sum_Z (score_gain <$> peds).

End Outcomes.

(** The credited set of a pedestrian holds slots of its own row only. *)
Definition credited_ok (p : Pedestrian) : Prop :=
  scored_at_indices p ⊆ {[(row p, 0); (row p, 1)]}.

(** The displacement (in rows, in columns) a key asks of the player. *)
Definition move_of_key (key : Key) : option (Z * Z) :=
  match key with
  | K_LEFT | K_a => Some (0, -1)
  | K_RIGHT | K_d => Some (0, 1)
  | K_UP | K_w => Some (-1, 0)
  | K_DOWN | K_s => Some (1, 0)
  | _ => None
  end.

(** ** Sample runs *)

(** An entropy source that always answers 0: every pedestrian is on row 0
    and every spawn delay is [PEDESTRIAN_SPAWN_RATE_MIN]. *)
Definition quiet_entropy : nat → nat := λ _, 0%nat.

(** An entropy source for a run in which the player never moves: the
    first two pedestrians walk the bottom row and the third the top row. *)
Definition busy_entropy (n : nat) : nat :=
  nth n [0; 0; 1; 0; 1; 0; 0; 120; 1; 0]%nat 0%nat.

(** The game after [n] frames without events. *)
Definition idle_run (rect_move : Z → Z) (entropy : nat → nat) (n : nat)
    : Game :=
  main_loop rect_move entropy (replicate n []) (initial_game entropy).

(** Four pedestrians on the paths: the first is about to reach the centre
    of the left manhole of the top row, the second is about to enter the
    left manhole of the bottom row, the third is about to leave the screen
    and the fourth is about to enter the right manhole of the top row. *)
Definition walker_a : Pedestrian :=
  {| rect_x := 229; row := 0; scored_at_indices := ∅ |}.
Definition walker_b : Pedestrian :=
  {| rect_x := 205; row := 1; scored_at_indices := ∅ |}.
Definition walker_c : Pedestrian :=
  {| rect_x := 800; row := 0; scored_at_indices := {[(0, 0); (0, 1)]} |}.
Definition walker_d : Pedestrian :=
  {| rect_x := 525; row := 0; scored_at_indices := {[(0, 0)]} |}.

(** A running game with one life left, the four pedestrians on the paths
    and the player on the left manhole of the top row. *)
Definition street_game : Game :=
  {| score := 10; lives := 1; player_row_index := 0; player_col_index := 0;
     pedestrians := [walker_a; walker_b; walker_c; walker_d];
     game_over := false; spawn_timer := 0; next_spawn_delay := 300;
     running := true; rng_pos := 4 |}.

(** A pedestrian past both manholes whose right edge is about to be 11
    pixels past the right boundary while its left edge is still on the
    screen, and a running game with that pedestrian alone. *)
Definition walker_e : Pedestrian :=
  {| rect_x := 789; row := 0; scored_at_indices := {[(0, 0); (0, 1)]} |}.

Definition late_game : Game :=
  {| score := 2; lives := 3; player_row_index := 0; player_col_index := 1;
     pedestrians := [walker_e];
     game_over := false; spawn_timer := 0; next_spawn_delay := 300;
     running := true; rng_pos := 4 |}.

(** The bonus rule read on the leading (right) edge of the pedestrian: its
    turn in the loop, when it does not fall and its right edge is past the
    right boundary, adds 5 to the score and marks it. *)
Definition leading_edge_rule (rect_move : Z → Z) (pr pc : Z) (i : nat)
    (p : Pedestrian) (c : Counters) : Prop :=
  let '(ped, c', fell_in_hole) := process_pedestrian rect_move pr pc i p c in
  fell_in_hole = false →
  SCREEN_WIDTH < rect_right ped →
  c_score c' = c_score c + 5 ∧ i ∈ c_remove c'.

(** The first pedestrian of the run of [quiet_entropy] without events,
    as it is after 334 frames: past the centre of the covered left manhole
    of the top row, credited for it. *)
Definition walker_f : Pedestrian :=
  {| rect_x := 231; row := 0; scored_at_indices := {[(0, 0)]} |}.

(** A finished game. *)
Definition lost_game : Game :=
  {| score := 7; lives := 0; player_row_index := 1; player_col_index := 0;
     pedestrians :=
       [{| rect_x := 300; row := 0; scored_at_indices := {[(0, 0)]} |}];
     game_over := true; spawn_timer := 17; next_spawn_delay := 250;
     running := true; rng_pos := 9 |}.

(** ** The player's rectangle and the drawing

    The drawing code calls pygame and changes no variable of the program.
    It is embedded as the list of the calls it makes, in order, with their
    arguments.  Vertical positions that come from [PATH_CENTERS_Y] are in
    half pixels, so that [SCREEN_HEIGHT * 0.75], the float 337.5, is the
    integer 675; every other number is in pixels.  A function of the
    program that can raise [IndexError] returns an option. *)

Definition SCREEN_HEIGHT : Z := 450.
Definition PATH_CENTERS_Y : list Z :=
  [2 * SCREEN_HEIGHT * 40 / 100; 2 * SCREEN_HEIGHT * 75 / 100].
Definition PATH_VISUAL_HEIGHT : Z := 5.
Definition MANHOLE_VISUAL_RADIUS : Z := 25.
Definition PLAYER_WIDTH : Z := MANHOLE_COLLISION_WIDTH + 2.
Definition PLAYER_HEIGHT : Z := MANHOLE_VISUAL_RADIUS * 2 + 2.

Definition Color : Type := Z * Z * Z.
Definition BACKGROUND_COLOR : Color := (135, 206, 235).
Definition PATH_COLOR : Color := (188, 143, 143).
Definition MANHOLE_VISUAL_COLOR : Color := (50, 50, 50).
Definition MANHOLE_OPEN_COLOR : Color := (0, 0, 0).
Definition PLAYER_COLOR : Color := (100, 100, 100).
Definition PLAYER_BORDER_COLOR : Color := (200, 200, 200).
Definition PEDESTRIAN_COLOR : Color := (255, 192, 203).
Definition PEDESTRIAN_BORDER_COLOR : Color := (50, 50, 50).
Definition TEXT_COLOR : Color := (0, 0, 0).
Definition GAME_OVER_TEXT_COLOR : Color := (255, 0, 0).
Definition RESTART_TEXT_COLOR : Color := (200, 200, 200).

(** [l[i]] in Python: a negative index counts from the end, an index out of
    range raises [IndexError]. *)
Definition py_index {A} (l : list A) (i : Z) : option A :=
  if 0 <=? i then l !! Z.to_nat i
  else if - Z.of_nat (length l) <=? i
       then l !! Z.to_nat (Z.of_nat (length l) + i)
       else None.

(** The centre of the manhole the player covers: [target_x] in pixels,
    [target_y] in half pixels. *)
Definition get_player_manhole_pos (g : Game) : option (Z * Z) :=
  match py_index MANHOLE_CENTERS_X (player_col_index g) with
  | None => None
  | Some target_x =>
      match py_index PATH_CENTERS_Y (player_row_index g) with
      | None => None
      | Some target_y => Some (target_x, target_y)
      end
  end.

(** The global variables together with [player_rect], of which only the
    centre ever changes. *)
Record Display := mkDisplay {
  game : Game;
  player_rect_center : Z * Z
}.

Inductive Font := info_font | game_over_font | restart_font.

(** The strings the program draws: [f"Score: {score}"], [f"Lives: {lives}"],
    ["GAME OVER"], [f"Final Score: {score}"], ["Press 'R' to Restart"]. *)
Inductive TextLine :=
  | score_text (v : Z)
  | lives_text (v : Z)
  | game_over_text
  | final_score_text (v : Z)
  | restart_text.

(** The calls of the drawing code.  A width of [None] is pygame's default,
    a filled shape. *)
Inductive DrawCall :=
  | screen_fill (color : Color)
  | draw_line (color : Color) (start_pos end_pos : Z * Z) (width : Z)
  | draw_player_rect (color : Color) (center : Z * Z) (width : option Z)
  | draw_pedestrian_rect (color : Color) (ped : Pedestrian)
      (width : option Z)
  | draw_circle (color : Color) (center : Z * Z) (radius : Z)
      (width : option Z)
  | draw_text (text : TextLine) (font : Font) (color : Color) (x y : Z)
      (center : bool)
  | blit_overlay (color : Color) (alpha : Z).

Section Display.

(** The value [player_rect.center] holds after it is assigned a pair of
    floats, given as pixels and half pixels. *)
Variable rect_center : Z * Z → Z * Z.
Variable entropy : nat → nat.

(** [reset_game()], with its last assignment to [player_rect.center]. *)
Definition reset_display (d : Display) : option Display :=
  let g := reset_game entropy (game d) in
  match get_player_manhole_pos g with
  | None => None
  | Some pos => Some {| game := g; player_rect_center := rect_center pos |}
  end.

(** The state the module's top level builds before the loop starts:
    [player_rect = pygame.Rect(0, 0, PLAYER_WIDTH, PLAYER_HEIGHT)], the
    global variables, then [reset_game()]. *)
Definition initial_display : option Display :=
  reset_display
    {| game := module_globals entropy;
       player_rect_center := (PLAYER_WIDTH / 2, PLAYER_HEIGHT / 2) |}.

(** Lines 142-164: a [KEYDOWN] event, with the flag [moved] and the update
    of [player_rect]. *)
Definition keydown_display (key : Key) (d : Display) : option Display :=
  let g := game d in
  if negb (game_over g) then
    let '(g1, moved) :=
      match key with
      | K_LEFT | K_a =>
          (set_player_col_index g
             ((player_col_index g - 1) mod len_MANHOLE_CENTERS_X), true)
      | K_RIGHT | K_d =>
          (set_player_col_index g
             ((player_col_index g + 1) mod len_MANHOLE_CENTERS_X), true)
      | K_UP | K_w =>
          (set_player_row_index g
             ((player_row_index g - 1) mod len_PATH_CENTERS_Y), true)
      | K_DOWN | K_s =>
          (set_player_row_index g
             ((player_row_index g + 1) mod len_PATH_CENTERS_Y), true)
      | _ => (g, false)
      end in
    if moved then
      match get_player_manhole_pos g1 with
      | None => None
      | Some pos =>
          Some {| game := g1; player_rect_center := rect_center pos |}
      end
    else Some {| game := g1; player_rect_center := player_rect_center d |}
  else
    match key with
    | K_r => reset_display d
    | _ => Some d
    end.

Definition event_display (d : Display) (event : Event) : option Display :=
  match event with
  | QUIT =>
      Some {| game := set_running (game d) false;
              player_rect_center := player_rect_center d |}
  | KEYDOWN key => keydown_display key d
  | OTHER_EVENT => Some d
  end.

(** [for event in pygame.event.get(): ...]; an exception ends the loop. *)
Fixpoint events_display (events : list Event) (d : Display)
    : option Display :=
  match events with
  | [] => Some d
  | event :: rest =>
      match event_display d event with
      | None => None
      | Some d1 => events_display rest d1
      end
  end.

Variable rect_move : Z → Z.

(** One iteration of the main loop up to the drawing: the events, then the
    game logic, which does not touch [player_rect]. *)
Definition frame_display (events : list Event) (d : Display)
    : option Display :=
  match events_display events d with
  | None => None
  | Some d1 =>
      Some {| game := game_logic rect_move entropy (game d1);
              player_rect_center := player_rect_center d1 |}
  end.

Fixpoint loop_display (batches : list (list Event)) (d : Display)
    : option Display :=
  match batches with
  | [] => Some d
  | events :: rest =>
      if running (game d) then
        match frame_display events d with
        | None => None
        | Some d1 => loop_display rest d1
        end
      else Some d
  end.

End Display.

(** Lines 240-254: what is drawn for the manhole of row [r_idx] and column
    [c_idx]. *)
Definition draw_manhole (d : Display) (r_idx path_y c_idx mh_x : Z)
    : list DrawCall :=
  let g := game d in
  let is_player_here :=
    (r_idx =? player_row_index g) && (c_idx =? player_col_index g) in
  if is_player_here && negb (game_over g) then
    [draw_player_rect PLAYER_COLOR (player_rect_center d) None;
     draw_player_rect PLAYER_BORDER_COLOR (player_rect_center d) (Some 2)]
  else
    draw_circle MANHOLE_VISUAL_COLOR (mh_x, path_y) MANHOLE_VISUAL_RADIUS
      (Some 2)
    :: (if negb (game_over g) then
          [draw_circle MANHOLE_OPEN_COLOR (mh_x, path_y)
             (MANHOLE_VISUAL_RADIUS - 2) None]
        else []).

Definition draw_manholes (d : Display) : list DrawCall :=
  flat_map
    (λ '(r_idx, path_y),
       flat_map (λ '(c_idx, mh_x), draw_manhole d r_idx path_y c_idx mh_x)
         (enumerate MANHOLE_CENTERS_X))
    (enumerate PATH_CENTERS_Y).

(** Lines 231-274: the drawing of one frame. *)
Definition draw_frame (d : Display) : list DrawCall :=
  let g := game d in
  [screen_fill BACKGROUND_COLOR]
  ++ ((λ path_y,
         draw_line PATH_COLOR (0, path_y) (SCREEN_WIDTH, path_y)
           PATH_VISUAL_HEIGHT) <$> PATH_CENTERS_Y)
  ++ draw_manholes d
  ++ flat_map
       (λ ped_data,
          [draw_pedestrian_rect PEDESTRIAN_COLOR ped_data None;
           draw_pedestrian_rect PEDESTRIAN_BORDER_COLOR ped_data (Some 1)])
       (pedestrians g)
  ++ [draw_text (score_text (score g)) info_font TEXT_COLOR 10 10 false;
      draw_text (lives_text (lives g)) info_font TEXT_COLOR
        (SCREEN_WIDTH - 110) 10 false]
  ++ (if game_over g then
        [blit_overlay (0, 0, 0) 150;
         draw_text game_over_text game_over_font GAME_OVER_TEXT_COLOR
           (SCREEN_WIDTH / 2) (SCREEN_HEIGHT / 2 - 40) true;
         draw_text (final_score_text (score g)) info_font TEXT_COLOR
           (SCREEN_WIDTH / 2) (SCREEN_HEIGHT / 2 + 20) true;
         draw_text restart_text restart_font RESTART_TEXT_COLOR
           (SCREEN_WIDTH / 2) (SCREEN_HEIGHT / 2 + 70) true]
      else []).

(** pygame's conversion of a pair of floats to the integer centre. *)
Definition pygame_rect_center (pos : Z * Z) : Z * Z :=
  (pos.1, pygame_round_halves pos.2).

(** The centres of the filled circles, of the outlined circles and of the
    player's rectangle among the calls of a frame, and the pedestrians and
    the texts drawn. *)
Definition open_manholes (calls : list DrawCall) : list (Z * Z) :=
  flat_map
    (λ call, match call with
             | draw_circle _ center _ None => [center]
             | _ => []
             end) calls.

Definition manhole_outlines (calls : list DrawCall) : list (Z * Z) :=
  flat_map
    (λ call, match call with
             | draw_circle _ center _ (Some _) => [center]
             | _ => []
             end) calls.

Definition covers_drawn (calls : list DrawCall) : list (Z * Z) :=
  flat_map
    (λ call, match call with
             | draw_player_rect _ center None => [center]
             | _ => []
             end) calls.

Definition pedestrians_drawn (calls : list DrawCall) : list Pedestrian :=
  flat_map
    (λ call, match call with
             | draw_pedestrian_rect _ ped None => [ped]
             | _ => []
             end) calls.

Definition texts_drawn (calls : list DrawCall) : list TextLine :=
  flat_map
    (λ call, match call with
             | draw_text text _ _ _ _ _ => [text]
             | _ => []
             end) calls.

(** The calls of a frame by what they draw, with all their arguments: the
    backdrop (background and paths), the manholes and the player's
    rectangle, the pedestrians, and the captions (texts and overlay). *)
Definition backdrop_calls (calls : list DrawCall) : list DrawCall :=
  flat_map
    (λ call, match call with
             | screen_fill _ | draw_line _ _ _ _ => [call]
             | _ => []
             end) calls.

Definition manhole_calls_drawn (calls : list DrawCall) : list DrawCall :=
  flat_map
    (λ call, match call with
             | draw_player_rect _ _ _ | draw_circle _ _ _ _ => [call]
             | _ => []
             end) calls.

Definition pedestrian_calls_drawn (calls : list DrawCall) : list DrawCall :=
  flat_map
    (λ call, match call with
             | draw_pedestrian_rect _ _ _ => [call]
             | _ => []
             end) calls.

Definition caption_calls (calls : list DrawCall) : list DrawCall :=
  flat_map
    (λ call, match call with
             | draw_text _ _ _ _ _ _ | blit_overlay _ _ => [call]
             | _ => []
             end) calls.

(** The centre of the manhole of a row and a column of the lattice. *)
Definition slot_center (r_idx c_idx : Z) : option (Z * Z) :=
  match MANHOLE_CENTERS_X !! Z.to_nat c_idx, PATH_CENTERS_Y !! Z.to_nat r_idx
  with
  | Some mh_x, Some path_y => Some (mh_x, path_y)
  | _, _ => None
  end.

(** The centres of the four manholes, in the order they are drawn. *)
Definition slot_centers : list (Z * Z) :=
  flat_map (λ path_y, (λ mh_x, (mh_x, path_y)) <$> MANHOLE_CENTERS_X)
    PATH_CENTERS_Y.

(** The player is on the lattice and [player_rect] is centred on the
    manhole the player covers. *)
Definition display_ok (rect_center : Z * Z → Z * Z) (d : Display) : Prop :=
  index_in_range (player_row_index (game d))
  ∧ index_in_range (player_col_index (game d))
  ∧ rect_center <$> get_player_manhole_pos (game d)
    = Some (player_rect_center d).

(** ** Vocabulary of the further properties *)

(** The counters of a game: the score is not negative, the lives are at
    most the 3 a game starts with, and the game is over exactly when no
    life is left. *)
Definition tally_ok (g : Game) : Prop :=
  0 ≤ score g ∧ lives g ≤ 3
  ∧ (if game_over g then lives g ≤ 0 else 1 ≤ lives g).

(** The spawn timer is below the delay it counts up to, and the delay is in
    the range it is drawn from. *)
Definition timers_ok (g : Game) : Prop :=
  0 ≤ spawn_timer g < next_spawn_delay g
  ∧ PEDESTRIAN_SPAWN_RATE_MIN ≤ next_spawn_delay g
    ≤ PEDESTRIAN_SPAWN_RATE_MAX.

(** A pedestrian is on one of the two rows and its left edge is not past
    the right boundary. *)
Definition ped_on_path (p : Pedestrian) : Prop :=
  index_in_range (row p) ∧ rect_left p ≤ SCREEN_WIDTH.

(** The points and the lives one pedestrian accounts for over the ticks
    of its walk, the player being at row [pr] and column [pc] during each
    tick as listed, until the pedestrian is marked for removal. *)
Fixpoint walk_points (rect_move : Z → Z) (players : list (Z * Z))
    (p : Pedestrian) : Z :=
  match players with
  | [] => 0
  | (pr, pc) :: rest =>
      score_gain rect_move pr pc p
      + (if ped_marked rect_move pr pc p then 0
         else walk_points rect_move rest (ped_next rect_move pr pc p))
  end.

Fixpoint walk_falls (rect_move : Z → Z) (players : list (Z * Z))
    (p : Pedestrian) : Z :=
  match players with
  | [] => 0
  | (pr, pc) :: rest =>
      (if ped_fell rect_move pr pc p then 1 else 0)
      + (if ped_marked rect_move pr pc p then 0
         else walk_falls rect_move rest (ped_next rect_move pr pc p))
  end.

(** A game at its start: nothing scored, three lives, no pedestrian, and
    at least [n] ticks to go before the first spawn. *)
Definition fresh_game (n : Z) (g : Game) : Prop :=
  score g = 0 ∧ lives g = 3 ∧ pedestrians g = [] ∧ game_over g = false
  ∧ 0 ≤ spawn_timer g ∧ spawn_timer g + n < next_spawn_delay g.

(** The flags of the positions [0 .. n-1] that occur in [indices]. *)
Definition position_flags (indices : list nat) (n : nat) : list bool :=
  (λ j, bool_decide (j ∈ indices)) <$> seq 0 n.

(** ** The random module stays in range *)

Lemma random_randint_range a b u :
  a ≤ b → a ≤ random_randint a b u ≤ b.
Proof.
  intros Hab. unfold random_randint.
  pose proof (Z.mod_pos_bound (Z.of_nat u) (b - a + 1)). lia.
Qed.

Lemma random_randint_onto a b v :
  a ≤ v ≤ b → ∃ u, random_randint a b u = v.
Proof.
  intros Hv. exists (Z.to_nat (v - a)). unfold random_randint.
  rewrite Z2Nat.id by lia. rewrite Z.mod_small by lia. lia.
Qed.

Lemma random_choice_rows u :
  random_choice [0; 1] u = Z.of_nat (u mod 2).
Proof.
  unfold random_choice. simpl length.
  pose proof (Nat.mod_upper_bound u 2).
  destruct (u mod 2)%nat as [|[|n]] eqn:E; simpl; lia.
Qed.

Lemma random_choice_rows_range u :
  index_in_range (random_choice [0; 1] u).
Proof.
  rewrite random_choice_rows. unfold index_in_range.
  pose proof (Nat.mod_upper_bound u 2). lia.
Qed.

(** ** Event handling *)

Lemma len_MANHOLE_CENTERS_X_eq : len_MANHOLE_CENTERS_X = 2.
Proof. reflexivity. Qed.

Lemma len_PATH_CENTERS_Y_eq : len_PATH_CENTERS_Y = 2.
Proof. reflexivity. Qed.

Section Events.

Variable entropy : nat → nat.

Lemma handle_keydown_game_over key g :
  game_over (handle_keydown entropy key g)
  = game_over g && negb (is_restart (KEYDOWN key)).
Proof.
  unfold handle_keydown.
  destruct (game_over g) eqn:E; destruct key; simpl; by rewrite ?E.
Qed.

Lemma handle_event_game_over event g :
  game_over (handle_event entropy g event)
  = game_over g && negb (is_restart event).
Proof.
  destruct event as [|key|]; simpl.
  - by rewrite andb_true_r.
  - apply handle_keydown_game_over.
  - by rewrite andb_true_r.
Qed.

Lemma handle_events_game_over events g :
  game_over (handle_events entropy events g)
  = game_over g && negb (existsb is_restart events).
Proof.
  unfold handle_events. revert g.
  induction events as [|e events IH]; intros g; simpl.
  - by rewrite andb_true_r.
  - rewrite IH, handle_event_game_over.
    destruct (game_over g), (is_restart e); simpl; try done.
Qed.

Lemma handle_event_frozen event g :
  game_over g = true → is_restart event = false →
  same_simulation g (handle_event entropy g event).
Proof.
  intros Hover Hr. unfold same_simulation.
  destruct event as [|key|]; simpl; try done.
  unfold handle_keydown. rewrite Hover. simpl.
  destruct key; simpl in *; done.
Qed.

Lemma handle_events_frozen events g :
  game_over g = true → existsb is_restart events = false →
  same_simulation g (handle_events entropy events g).
Proof.
  unfold handle_events. revert g.
  induction events as [|e events IH]; intros g Hover Hr; simpl in *.
  - done.
  - apply orb_false_iff in Hr as [He Hr].
    pose proof (handle_event_frozen e g Hover He) as Hs.
    assert (game_over (handle_event entropy g e) = true) as Hover'.
    { destruct Hs as (_&_&_&_&_&->&_). done. }
    specialize (IH _ Hover' Hr).
    unfold same_simulation in *. destruct_and!. repeat split; congruence.
Qed.

Lemma handle_event_indices event g :
  index_in_range (player_row_index g) →
  index_in_range (player_col_index g) →
  index_in_range (player_row_index (handle_event entropy g event))
  ∧ index_in_range (player_col_index (handle_event entropy g event)).
Proof.
  unfold index_in_range. intros Hr Hc.
  destruct event as [|key|]; simpl; try done.
  unfold handle_keydown.
  destruct (game_over g); destruct key; simpl; try done;
    rewrite ?len_MANHOLE_CENTERS_X_eq, ?len_PATH_CENTERS_Y_eq;
    split; try done;
    match goal with
    | |- context [?a mod 2] => pose proof (Z.mod_pos_bound a 2); lia
    | _ => lia
    end.
Qed.

Lemma handle_events_indices events g :
  index_in_range (player_row_index g) →
  index_in_range (player_col_index g) →
  index_in_range (player_row_index (handle_events entropy events g))
  ∧ index_in_range (player_col_index (handle_events entropy events g)).
Proof.
  unfold handle_events. revert g.
  induction events as [|e events IH]; intros g Hr Hc; simpl.
  - done.
  - destruct (handle_event_indices e g Hr Hc). by apply IH.
Qed.

End Events.

(** ** The removal pass *)

#[global] Instance index_ge_trans : Transitive index_ge.
Proof. unfold index_ge. intros a b c ??. lia. Qed.

#[global] Instance index_ge_antisymm : AntiSymm (=) index_ge.
Proof. unfold index_ge. intros a b ??. lia. Qed.

#[global] Instance index_ge_total : Total index_ge.
Proof. unfold index_ge. intros a b. lia. Qed.

Section Removal.

Context {A : Type}.
Implicit Types (l : list A) (flags : list bool) (ms : list nat).

Lemma del_index_delete l index : del_index l index = delete index l.
Proof.
  unfold del_index. destruct (index <? length l)%nat eqn:E; simpl; [done|].
  apply Nat.ltb_ge in E. revert index E.
  induction l as [|a l IH]; intros [|k] E; simpl in *; try done; try lia.
  f_equal. apply IH. lia.
Qed.

Lemma del_index_cons a l k : del_index (a :: l) (S k) = a :: del_index l k.
Proof. by rewrite !del_index_delete. Qed.

Lemma flagged_indices_bounds i flags :
  Forall (λ j, i ≤ j < i + length flags)%nat (flagged_indices i flags).
Proof.
  revert i. induction flags as [|f flags IH]; intros i; simpl; [constructor|].
  apply Forall_app. split.
  - destruct f; constructor; [lia|constructor].
  - eapply Forall_impl; [apply IH|]. simpl. intros j ?. lia.
Qed.

Lemma flagged_indices_sorted i flags :
  StronglySorted lt (flagged_indices i flags).
Proof.
  revert i. induction flags as [|f flags IH]; intros i; simpl; [constructor|].
  destruct f; simpl; [|apply IH].
  constructor; [apply IH|].
  eapply Forall_impl; [apply flagged_indices_bounds|]. simpl. intros j ?. lia.
Qed.

Lemma flagged_indices_length i flags :
  length (flagged_indices i flags)
  = length (filter (λ f, f = true) flags).
Proof.
  revert i. induction flags as [|f flags IH]; intros i; simpl; [done|].
  rewrite length_app, filter_cons, IH.
  destruct f; destruct (decide _); simpl; congruence.
Qed.

Lemma elem_of_flagged_indices i flags j :
  j ∈ flagged_indices i flags ↔ (i ≤ j)%nat ∧ flags !! (j - i)%nat = Some true.
Proof.
  revert i. induction flags as [|f flags IH]; intros i; simpl.
  - rewrite elem_of_nil. split; [done|]. by intros [_ ?].
  - rewrite elem_of_app, IH. split.
    + intros [Hj|[Hle Hj]].
      * destruct f; [|by apply elem_of_nil in Hj].
        apply list_elem_of_singleton in Hj as ->.
        split; [lia|]. by replace (i - i)%nat with 0%nat by lia.
      * split; [lia|]. by replace (j - i)%nat with (S (j - S i)) by lia.
    + intros [Hle Hj]. destruct (decide (j = i)) as [->|Hne].
      * left. replace (i - i)%nat with 0%nat in Hj by lia. simpl in Hj.
        injection Hj as ->. by apply list_elem_of_singleton.
      * right. split; [lia|].
        by replace (j - i)%nat with (S (j - S i)) in Hj by lia.
Qed.

Lemma remove_dups_NoDup ms : NoDup ms → remove_dups ms = ms.
Proof.
  induction 1 as [|m ms Hm Hnd IH]; simpl; [done|].
  rewrite IH. by destruct (decide_rel (∈) m ms).
Qed.

Lemma ascending_NoDup ms : StronglySorted lt ms → NoDup ms.
Proof.
  induction 1 as [|m ms Hs IH Hall]; constructor; [|done].
  intros Hin. rewrite Forall_forall in Hall. specialize (Hall _ Hin). lia.
Qed.

(** On indices collected in increasing order, each once, the sorted set
    is the list read backwards. *)
Lemma sorted_reverse_set_ascending ms :
  StronglySorted lt ms → sorted_reverse_set ms = reverse ms.
Proof.
  intros Hs. unfold sorted_reverse_set.
  rewrite remove_dups_NoDup by by apply ascending_NoDup.
  apply (Sorted_unique index_ge).
  - apply Sorted_merge_sort, _.
  - change index_ge with (flip le). apply Sorted_reverse.
    apply StronglySorted_Sorted.
    induction Hs as [|m ms Hs IH Hall]; constructor; [done|].
    eapply Forall_impl; [exact Hall|]. simpl. intros. lia.
  - rewrite merge_sort_Permutation. by rewrite reverse_Permutation.
Qed.

Lemma foldl_reverse_foldr {B} (f : list A → B → list A) l (ms : list B) :
  foldl f l (reverse ms) = foldr (λ m acc, f acc m) l ms.
Proof.
  induction ms as [|m ms IH]; simpl; [done|].
  by rewrite reverse_cons, foldl_app, IH.
Qed.

(** Deletions at positions past the head leave the head in place. *)
Lemma foldr_del_cons i a l ms :
  Forall (λ j, S i ≤ j)%nat ms →
  foldr (λ m acc, del_index acc (m - i)) (a :: l) ms
  = a :: foldr (λ m acc, del_index acc (m - S i)) l ms.
Proof.
  induction 1 as [|m ms Hm Hall IH]; simpl; [done|].
  rewrite IH. replace (m - i)%nat with (S (m - S i)) by lia.
  apply del_index_cons.
Qed.

Lemma foldr_del_flagged i flags l :
  foldr (λ m acc, del_index acc (m - i)) l (flagged_indices i flags)
  = keep_unflagged flags l.
Proof.
  revert i l. induction flags as [|f flags IH]; intros i l; simpl; [done|].
  destruct l as [|a l].
  - destruct f; simpl.
    + clear IH. generalize (flagged_indices (S i) flags) as ms.
      assert (∀ ms, foldr (λ m acc, del_index acc (m - i)) ([] : list A) ms
                    = []) as Hnil.
      { induction ms as [|m ms IHms]; simpl; [done|]. by rewrite IHms. }
      intros ms. by rewrite Hnil.
    + clear IH. induction (flagged_indices (S i) flags) as [|m ms IHms];
        simpl; [done|]. by rewrite IHms.
  - assert (Forall (λ j, S i ≤ j)%nat (flagged_indices (S i) flags)) as Hb.
    { eapply Forall_impl; [apply flagged_indices_bounds|].
      simpl. intros j ?. lia. }
    destruct f; simpl.
    + rewrite foldr_del_cons by done. rewrite IH.
      by replace (i - i)%nat with 0%nat by lia.
    + rewrite foldr_del_cons by done. by rewrite IH.
Qed.

(** The removal pass on the indices collected by a loop over the list
    keeps precisely the entries that were not marked. *)
Lemma remove_pedestrians_flagged flags l :
  remove_pedestrians (flagged_indices 0 flags) l = keep_unflagged flags l.
Proof.
  unfold remove_pedestrians.
  rewrite sorted_reverse_set_ascending by apply flagged_indices_sorted.
  rewrite foldl_reverse_foldr. rewrite <- (foldr_del_flagged 0).
  apply foldr_ext; [|done|done].
  intros m acc. by rewrite Nat.sub_0_r.
Qed.

Lemma keep_unflagged_length flags l :
  length flags = length l →
  (length (keep_unflagged flags l)
     + length (flagged_indices 0 flags))%nat = length l.
Proof.
  generalize 0%nat as i. revert l.
  induction flags as [|f flags IH]; intros [|a l] i Hlen; simpl in *;
    try done.
  injection Hlen as Hlen. specialize (IH l (S i) Hlen).
  rewrite length_app. destruct f; simpl; lia.
Qed.

Lemma del_index_length l index :
  (index < length l)%nat → length (del_index l index) = (length l - 1)%nat.
Proof.
  intros Hlt. rewrite del_index_delete. apply length_delete.
  by apply lookup_lt_is_Some.
Qed.

(** Visited from the largest down, indices that are distinct and inside
    the list all pass the range test. *)
Lemma guards_pass_descending l ms :
  StronglySorted lt ms →
  Forall (λ j, j < length l)%nat ms →
  guards_pass l (reverse ms) = true.
Proof.
  revert l. induction ms as [|m ms IH] using rev_ind; intros l Hs Hb;
    [done|].
  rewrite reverse_app. cbn [reverse rev_append app guards_pass].
  apply StronglySorted_app in Hs as (Hlt & Hs & _).
  apply Forall_app in Hb as [Hb Hm]. apply Forall_inv in Hm.
  apply andb_true_iff. split.
  - apply andb_true_iff. split; [apply Nat.leb_le; lia|].
    by apply Nat.ltb_lt.
  - apply IH; [done|]. rewrite del_index_length by done.
    apply Forall_forall. intros j Hj.
    assert (j < m)%nat by (apply Hlt; [done|by apply list_elem_of_singleton]).
    lia.
Qed.

End Removal.

(** ** One pedestrian against the two manholes of its row *)

Lemma enumerate_MANHOLE_CENTERS_X :
  enumerate MANHOLE_CENTERS_X = [(0, 240); (1, 560)].
Proof. reflexivity. Qed.

Lemma in_zone_spec manhole_x x :
  in_zone manhole_x x = true ↔ manhole_x - 25 < x < manhole_x + 25.
Proof.
  unfold in_zone, MANHOLE_COLLISION_WIDTH.
  change (50 / 2) with 25.
  rewrite andb_true_iff, !Z.ltb_lt. lia.
Qed.

(** The zones of the layout do not overlap: a centre lies in at most one. *)
Lemma zone_slot_unique col manhole_x x :
  (col, manhole_x) ∈ enumerate MANHOLE_CENTERS_X →
  in_zone manhole_x x = true →
  zone_slot x = Some (col, manhole_x).
Proof.
  unfold zone_slot. rewrite enumerate_MANHOLE_CENTERS_X.
  intros Hin Hz. simpl.
  apply elem_of_cons in Hin as [Heq|Hin].
  - injection Heq as -> ->. by rewrite Hz.
  - apply list_elem_of_singleton in Hin. injection Hin as -> ->.
    destruct (in_zone 240 x) eqn:E0.
    + apply in_zone_spec in E0, Hz. lia.
    + by rewrite Hz.
Qed.

Lemma zone_slot_Some x col manhole_x :
  zone_slot x = Some (col, manhole_x) →
  (col, manhole_x) ∈ enumerate MANHOLE_CENTERS_X
  ∧ in_zone manhole_x x = true.
Proof.
  unfold zone_slot. rewrite enumerate_MANHOLE_CENTERS_X. simpl.
  destruct (in_zone 240 x) eqn:E0; [|destruct (in_zone 560 x) eqn:E1];
    intros [= <- <-]; (split; [|done]).
  - apply elem_of_cons. by left.
  - apply elem_of_cons. right. by apply list_elem_of_singleton.
Qed.

Lemma zone_slot_None x :
  zone_slot x = None →
  ∀ col manhole_x, (col, manhole_x) ∈ enumerate MANHOLE_CENTERS_X →
                   in_zone manhole_x x = false.
Proof.
  intros Hn col manhole_x Hin.
  destruct (in_zone manhole_x x) eqn:E; [|done].
  rewrite (zone_slot_unique _ _ _ Hin E) in Hn. done.
Qed.

Lemma check_manholes_layout pr pc i ped_row x scored c :
  check_manholes pr pc i ped_row x (enumerate MANHOLE_CENTERS_X) scored c
  = slot_outcome pr pc i ped_row x scored c.
Proof.
  unfold slot_outcome, zone_slot.
  rewrite enumerate_MANHOLE_CENTERS_X. simpl.
  destruct (in_zone 240 x) eqn:E0; destruct (in_zone 560 x) eqn:E1;
    try done.
  apply in_zone_spec in E0, E1. lia.
Qed.

(** ** The loop over the pedestrians *)

Lemma Counters_ext s1 l1 r1 s2 l2 r2 :
  s1 = s2 → l1 = l2 → r1 = r2 →
  {| c_score := s1; c_lives := l1; c_remove := r1 |}
  = {| c_score := s2; c_lives := l2; c_remove := r2 |}.
Proof. by intros -> -> ->. Qed.

(** Equations between loop results: componentwise, the counters by
    arithmetic. *)
Ltac counters_eq :=
  repeat (apply (f_equal2 pair));
  first [ reflexivity
        | apply Counters_ext; [lia | lia | by rewrite ?app_nil_r] ].

Section Pedestrians.

Variable rect_move : Z → Z.
Variables pr pc : Z.

Local Abbreviation outcome := (outcome rect_move pr pc).
Local Abbreviation ped_next := (ped_next rect_move pr pc).
Local Abbreviation ped_fell := (ped_fell rect_move pr pc).
Local Abbreviation score_gain := (score_gain rect_move pr pc).
Local Abbreviation ped_marked := (ped_marked rect_move pr pc).
Local Abbreviation moved_center := (moved_center rect_move).

Lemma process_pedestrian_counters i p c :
  process_pedestrian rect_move pr pc i p c
  = (ped_next p,
     {| c_score := c_score c + score_gain p;
        c_lives := c_lives c - (if ped_fell p then 1 else 0);
        c_remove := c_remove c ++ (if ped_marked p then [i] else []) |},
     ped_fell p).
Proof.
  unfold ped_next, ped_fell, score_gain, ped_marked, outcome,
    process_pedestrian.
  rewrite !check_manholes_layout. unfold slot_outcome.
  destruct c as [sc lv rm]. simpl.
  destruct (zone_slot _) as [[col manhole_x]|]; simpl.
  - destruct ((row p =? pr) && (col =? pc)); simpl.
    + destruct ((manhole_x <=? _) && negb (bool_decide _)); simpl;
        destruct (SCREEN_WIDTH <? _); simpl; counters_eq.
    + counters_eq.
  - destruct (SCREEN_WIDTH <? _); simpl; counters_eq.
Qed.

Lemma move_pedestrians_summary i peds c :
  move_pedestrians rect_move pr pc i peds c
  = (ped_next <$> peds,
     {| c_score := c_score c + sum_Z (score_gain <$> peds);
        c_lives :=
          c_lives c - Z.of_nat (length (filter (λ p, ped_fell p = true) peds));
        c_remove := c_remove c ++ flagged_indices i (ped_marked <$> peds) |}).
Proof.
  revert i c. induction peds as [|p peds IH]; intros i c.
  - destruct c; simpl. counters_eq.
  - cbn [move_pedestrians]. rewrite process_pedestrian_counters, IH.
    rewrite filter_cons, !fmap_cons.
    cbn [flagged_indices sum_Z foldr c_score c_lives c_remove].
    rewrite <- app_assoc. fold (sum_Z (score_gain <$> peds)).
    destruct (ped_fell p); destruct (decide _); try done;
      cbn [length]; rewrite ?Nat2Z.inj_succ; counters_eq.
Qed.

Lemma keep_unflagged_marked peds :
  keep_unflagged (ped_marked <$> peds) (ped_next <$> peds)
  = ped_next <$> filter (λ p, ped_marked p = false) peds.
Proof.
  induction peds as [|p peds IH]; [done|].
  rewrite filter_cons, !fmap_cons. cbn [keep_unflagged]. rewrite IH.
  destruct (ped_marked p); destruct (decide _); try done.
Qed.

(** The outcomes of one pedestrian, by the slot its centre is in. *)
Lemma outcome_slot p :
  outcome p
  = let '(scored, c, fell) :=
      slot_outcome pr pc 0 (row p) (moved_center p) (scored_at_indices p)
        {| c_score := 0; c_lives := 0; c_remove := [] |} in
    let ped :=
      {| rect_x := rect_move (rect_x p); row := row p;
         scored_at_indices := scored |} in
    if negb fell && (SCREEN_WIDTH <? rect_move (rect_x p)) then
      (ped,
       {| c_score := c_score c + 5; c_lives := c_lives c;
          c_remove := c_remove c ++ [0%nat] |},
       fell)
    else (ped, c, fell).
Proof.
  unfold outcome, process_pedestrian. rewrite check_manholes_layout.
  unfold moved_center, rect_centerx. simpl.
  by destruct (slot_outcome _ _ _ _ _ _ _) as [[??]?].
Qed.

End Pedestrians.

(** ** One tick *)

Section Tick.

Variable rect_move : Z → Z.
Variable entropy : nat → nat.

Local Abbreviation survivors := (survivors rect_move).
Local Abbreviation fallen := (fallen rect_move).
Local Abbreviation gained := (gained rect_move).

Lemma spawn_keeps g :
  score (spawn entropy g) = score g
  ∧ lives (spawn entropy g) = lives g
  ∧ player_row_index (spawn entropy g) = player_row_index g
  ∧ player_col_index (spawn entropy g) = player_col_index g
  ∧ game_over (spawn entropy g) = game_over g
  ∧ running (spawn entropy g) = running g.
Proof. unfold spawn. by destruct (next_spawn_delay g <=? _). Qed.

(** The tick of a running game in closed form. *)
Lemma game_logic_running g :
  game_over g = false →
  let pr := player_row_index g in
  let pc := player_col_index g in
  let g1 := spawn entropy g in
  game_logic rect_move entropy g
  = {| score := score g + gained pr pc (pedestrians g1);
       lives := lives g - fallen pr pc (pedestrians g1);
       player_row_index := pr;
       player_col_index := pc;
       pedestrians := survivors pr pc (pedestrians g1);
       game_over := lives g - fallen pr pc (pedestrians g1) <=? 0;
       spawn_timer := spawn_timer g1;
       next_spawn_delay := next_spawn_delay g1;
       running := running g;
       rng_pos := rng_pos g1 |}.
Proof.
  intros Hrun. unfold game_logic. rewrite Hrun. cbn [negb].
  destruct (spawn_keeps g) as (Hs & Hl & Hr & Hc & Ho & Hq).
  rewrite move_pedestrians_summary. cbn [c_score c_lives c_remove app].
  rewrite remove_pedestrians_flagged, keep_unflagged_marked.
  rewrite Hs, Hl, Hr, Hc, Ho, Hq, Hrun.
  unfold survivors, fallen, gained.
  by destruct (_ <=? 0).
Qed.

Lemma game_logic_over g : game_over g = true → game_logic rect_move entropy g = g.
Proof. intros Hover. unfold game_logic. by rewrite Hover. Qed.

Lemma survivors_app pr pc l1 l2 :
  survivors pr pc (l1 ++ l2) = survivors pr pc l1 ++ survivors pr pc l2.
Proof. unfold survivors. by rewrite filter_app, fmap_app. Qed.

Lemma fallen_app pr pc l1 l2 :
  fallen pr pc (l1 ++ l2) = fallen pr pc l1 + fallen pr pc l2.
Proof. unfold fallen. rewrite filter_app, length_app. lia. Qed.

Lemma gained_app pr pc l1 l2 :
  gained pr pc (l1 ++ l2) = gained pr pc l1 + gained pr pc l2.
Proof.
  unfold gained. rewrite fmap_app.
  induction (score_gain rect_move pr pc <$> l1) as [|v l IH]; simpl; lia.
Qed.

Lemma survivors_cons pr pc p l :
  survivors pr pc (p :: l)
  = (if ped_marked rect_move pr pc p then []
     else [ped_next rect_move pr pc p]) ++ survivors pr pc l.
Proof.
  unfold survivors. rewrite filter_cons.
  destruct (ped_marked rect_move pr pc p); by destruct (decide _).
Qed.

Lemma fallen_cons pr pc p l :
  fallen pr pc (p :: l)
  = (if ped_fell rect_move pr pc p then 1 else 0) + fallen pr pc l.
Proof.
  unfold fallen. rewrite filter_cons.
  destruct (ped_fell rect_move pr pc p); destruct (decide _); try done;
    cbn [length]; lia.
Qed.

Lemma gained_cons pr pc p l :
  gained pr pc (p :: l) = score_gain rect_move pr pc p + gained pr pc l.
Proof. done. Qed.

End Tick.

(** ** The three fates of a pedestrian in one tick *)

Section Fates.

Variable rect_move : Z → Z.
Variables pr pc : Z.

Local Abbreviation outcome := (outcome rect_move pr pc).
Local Abbreviation moved_center := (moved_center rect_move).

Lemma slot_bounds col manhole_x :
  (col, manhole_x) ∈ enumerate MANHOLE_CENTERS_X →
  (col = 0 ∧ manhole_x = 240) ∨ (col = 1 ∧ manhole_x = 560).
Proof.
  rewrite enumerate_MANHOLE_CENTERS_X. intros Hin.
  apply elem_of_cons in Hin as [[= -> ->]|Hin]; [by left|].
  apply list_elem_of_singleton in Hin as [= -> ->]. by right.
Qed.

(** A centre inside a collision zone is on the screen. *)
Lemma in_zone_on_screen col manhole_x p :
  (col, manhole_x) ∈ enumerate MANHOLE_CENTERS_X →
  in_zone manhole_x (moved_center p) = true →
  (SCREEN_WIDTH <? rect_move (rect_x p)) = false.
Proof.
  intros Hin Hz. apply in_zone_spec in Hz.
  unfold moved_center, PEDESTRIAN_WIDTH in Hz.
  change (20 / 2) with 10 in Hz.
  apply Z.ltb_ge. unfold SCREEN_WIDTH.
  destruct (slot_bounds _ _ Hin) as [[-> ->]|[-> ->]]; lia.
Qed.

Lemma outcome_covered col manhole_x p :
  (col, manhole_x) ∈ enumerate MANHOLE_CENTERS_X →
  in_zone manhole_x (moved_center p) = true →
  row p = pr → col = pc →
  let credit :=
    (manhole_x <=? moved_center p)
    && negb (bool_decide ((row p, col) ∈ scored_at_indices p)) in
  outcome p
  = ({| rect_x := rect_move (rect_x p); row := row p;
        scored_at_indices :=
          if credit then {[(row p, col)]} ∪ scored_at_indices p
          else scored_at_indices p |},
     {| c_score := if credit then 1 else 0; c_lives := 0; c_remove := [] |},
     false).
Proof.
  intros Hin Hz Hr Hc credit. rewrite outcome_slot. unfold slot_outcome.
  rewrite (zone_slot_unique _ _ _ Hin Hz).
  rewrite (in_zone_on_screen _ _ _ Hin Hz).
  subst pr pc. rewrite !Z.eqb_refl. cbn [andb]. subst credit.
  by destruct (_ && _).
Qed.

Lemma outcome_uncovered col manhole_x p :
  (col, manhole_x) ∈ enumerate MANHOLE_CENTERS_X →
  in_zone manhole_x (moved_center p) = true →
  ¬ (row p = pr ∧ col = pc) →
  outcome p
  = ({| rect_x := rect_move (rect_x p); row := row p;
        scored_at_indices := scored_at_indices p |},
     {| c_score := 0; c_lives := 0 - 1; c_remove := [0%nat] |},
     true).
Proof.
  intros Hin Hz Hn. rewrite outcome_slot. unfold slot_outcome.
  rewrite (zone_slot_unique _ _ _ Hin Hz).
  destruct ((row p =? pr) && (col =? pc)) eqn:E; [|done].
  apply andb_true_iff in E as [?%Z.eqb_eq ?%Z.eqb_eq]. by destruct Hn.
Qed.

Lemma outcome_exit p :
  SCREEN_WIDTH < rect_move (rect_x p) →
  outcome p
  = ({| rect_x := rect_move (rect_x p); row := row p;
        scored_at_indices := scored_at_indices p |},
     {| c_score := 0 + 5; c_lives := 0; c_remove := [0%nat] |},
     false).
Proof.
  intros Hx. rewrite outcome_slot. unfold slot_outcome.
  destruct (zone_slot (moved_center p)) as [[col manhole_x]|] eqn:E.
  - apply zone_slot_Some in E as [Hin Hz].
    pose proof (in_zone_on_screen _ _ _ Hin Hz) as Hs.
    apply Z.ltb_ge in Hs. lia.
  - apply Z.ltb_lt in Hx. by rewrite Hx.
Qed.

(** The result of the loop body from any counters, given the outcome from
    zeroed ones. *)
Lemma process_pedestrian_outcome i p c ped gain loss marks fell :
  outcome p
  = (ped, {| c_score := gain; c_lives := 0 - loss; c_remove := marks |},
     fell) →
  (loss = if fell then 1 else 0) →
  process_pedestrian rect_move pr pc i p c
  = (ped,
     {| c_score := c_score c + gain;
        c_lives := c_lives c - loss;
        c_remove := c_remove c ++ (if marks is [] then [] else [i]) |},
     fell).
Proof.
  intros Ho Hl. rewrite process_pedestrian_counters.
  unfold ped_next, ped_fell, score_gain, ped_marked. rewrite Ho.
  cbn [fst snd c_score c_remove]. subst loss.
  destruct marks; [rewrite bool_decide_eq_false_2 by (by intros [])
                  |rewrite bool_decide_eq_true_2 by done];
    destruct fell; counters_eq.
Qed.

End Fates.

(** ** The main loop *)

Section Loop.

Variable rect_move : Z → Z.
Variable entropy : nat → nat.

Lemma game_logic_indices g :
  player_row_index (game_logic rect_move entropy g) = player_row_index g
  ∧ player_col_index (game_logic rect_move entropy g) = player_col_index g.
Proof.
  destruct (game_over g) eqn:E.
  - by rewrite game_logic_over.
  - by rewrite game_logic_running.
Qed.

Lemma frame_indices events g :
  index_in_range (player_row_index g) →
  index_in_range (player_col_index g) →
  index_in_range (player_row_index (frame rect_move entropy events g))
  ∧ index_in_range (player_col_index (frame rect_move entropy events g)).
Proof.
  intros Hr Hc. unfold frame.
  destruct (game_logic_indices (handle_events entropy events g)) as [-> ->].
  by apply handle_events_indices.
Qed.

Lemma main_loop_indices batches g :
  index_in_range (player_row_index g) →
  index_in_range (player_col_index g) →
  index_in_range (player_row_index (main_loop rect_move entropy batches g))
  ∧ index_in_range (player_col_index (main_loop rect_move entropy batches g)).
Proof.
  revert g. induction batches as [|events batches IH]; intros g Hr Hc;
    simpl; [done|].
  destruct (running g); [|done].
  destruct (frame_indices events g Hr Hc). by apply IH.
Qed.

Lemma main_loop_reachable batches g :
  Reachable rect_move entropy g →
  Reachable rect_move entropy (main_loop rect_move entropy batches g).
Proof.
  revert g. induction batches as [|events batches IH]; intros g Hg;
    simpl; [done|].
  destruct (running g) eqn:E; [|done].
  apply IH. by constructor.
Qed.

Lemma frame_game_over events g :
  game_over (frame rect_move entropy events g)
  = game_over (handle_events entropy events g)
    || (lives (frame rect_move entropy events g) <=? 0).
Proof.
  unfold frame. destruct (game_over (handle_events entropy events g)) eqn:E.
  - rewrite game_logic_over by done. by rewrite E.
  - by rewrite game_logic_running.
Qed.

End Loop.

(** * The specification, statement by statement *)

(** C7. While the game is running, a left or right key replaces the column
    index by (column - 1) mod 2 or (column + 1) mod 2 and an up or down key
    replaces the row index by (row - 1) mod 2 or (row + 1) mod 2, the other
    index being kept; after any run of frames and any batch of events the
    row and column indices are in {0, 1}, and they still are after the
    move. *)
Theorem player_moves_wrap rect_move entropy g batches events key dr dc :
  index_in_range (player_row_index g) →
  index_in_range (player_col_index g) →
  game_over
    (handle_events entropy events (main_loop rect_move entropy batches g))
  = false →
  move_of_key key = Some (dr, dc) →
  let g1 :=
    handle_events entropy events (main_loop rect_move entropy batches g) in
  let g2 := handle_event entropy g1 (KEYDOWN key) in
  (index_in_range (player_row_index g1)
   ∧ index_in_range (player_col_index g1))
  ∧ player_row_index g2 = (player_row_index g1 + dr) mod 2
  ∧ player_col_index g2 = (player_col_index g1 + dc) mod 2
  ∧ index_in_range (player_row_index g2)
  ∧ index_in_range (player_col_index g2).
Proof.
  intros Hr Hc Hrun Hkey g1 g2.
  destruct (main_loop_indices rect_move entropy batches g Hr Hc) as [Hr0 Hc0].
  destruct (handle_events_indices entropy events _ Hr0 Hc0) as [Hr1 Hc1].
  fold g1 in Hr1, Hc1, Hrun.
  split; [done|].
  destruct (handle_event_indices entropy (KEYDOWN key) g1 Hr1 Hc1)
    as [Hr2 Hc2].
  fold g2 in Hr2, Hc2.
  assert (player_row_index g2 = (player_row_index g1 + dr) mod 2
          ∧ player_col_index g2 = (player_col_index g1 + dc) mod 2) as [??];
    [|done].
  subst g2. clearbody g1. clear Hr2 Hc2.
  cbn [handle_event]. unfold handle_keydown. rewrite Hrun.
  cbn [negb]. unfold index_in_range in Hr1, Hc1.
  destruct key; simplify_eq/=;
    rewrite ?len_MANHOLE_CENTERS_X_eq, ?len_PATH_CENTERS_Y_eq;
    destruct Hr1 as [Hr1|Hr1], Hc1 as [Hc1|Hc1];
    rewrite ?Hr1, ?Hc1; done.
Qed.

Lemma player_moves_wrap_witness :
  index_in_range (player_row_index (initial_game quiet_entropy))
  ∧ index_in_range (player_col_index (initial_game quiet_entropy))
  ∧ move_of_key K_UP = Some (-1, 0)
  ∧ player_row_index
      (handle_event quiet_entropy
         (handle_events quiet_entropy [KEYDOWN K_LEFT]
            (main_loop pygame_rect_move quiet_entropy [[]; [KEYDOWN K_d]]
               (initial_game quiet_entropy)))
         (KEYDOWN K_UP)) = 1.
Proof.
  split; [by left|]. split; [by left|]. split; [reflexivity|].
  pose proof (player_moves_wrap pygame_rect_move quiet_entropy
                (initial_game quiet_entropy) [[]; [KEYDOWN K_d]]
                [KEYDOWN K_LEFT] K_UP (-1) 0
                (or_introl eq_refl) (or_introl eq_refl)
                eq_refl eq_refl) as H.
  destruct H as (_ & Hrow & _). rewrite Hrow. reflexivity.
Defined.

(** C4. The restart key, pressed while the game is over, sets the score to
    0, the lives to 3, the player to row 0 and column 0, empties the
    pedestrian list, sets the spawn timer to 0, draws the next spawn delay
    with [random.randint] from [MIN, MAX] (every value of which can be
    drawn) and makes the game run; pressed while the game is running it
    changes nothing. *)
Theorem restart_resets entropy g g0 :
  game_over g = true →
  game_over g0 = false →
  let g' := handle_event entropy g (KEYDOWN K_r) in
  score g' = 0
  ∧ lives g' = 3
  ∧ player_row_index g' = 0
  ∧ player_col_index g' = 0
  ∧ pedestrians g' = []
  ∧ spawn_timer g' = 0
  ∧ next_spawn_delay g'
    = random_randint PEDESTRIAN_SPAWN_RATE_MIN PEDESTRIAN_SPAWN_RATE_MAX
        (entropy (rng_pos g))
  ∧ PEDESTRIAN_SPAWN_RATE_MIN ≤ next_spawn_delay g'
    ≤ PEDESTRIAN_SPAWN_RATE_MAX
  ∧ (∀ v, PEDESTRIAN_SPAWN_RATE_MIN ≤ v ≤ PEDESTRIAN_SPAWN_RATE_MAX →
          ∃ u, random_randint PEDESTRIAN_SPAWN_RATE_MIN
                 PEDESTRIAN_SPAWN_RATE_MAX u = v)
  ∧ game_over g' = false
  ∧ g' = reset_game entropy g
  ∧ handle_event entropy g0 (KEYDOWN K_r) = g0.
Proof.
  intros Hover Hrun g'. subst g'. cbn [handle_event]. unfold handle_keydown.
  rewrite Hover, Hrun. cbn [negb reset_game score lives player_row_index
    player_col_index pedestrians spawn_timer next_spawn_delay game_over].
  repeat split; try done.
  - apply random_randint_range. done.
  - apply random_randint_range. done.
  - apply random_randint_onto.
Qed.

Lemma restart_resets_witness :
  game_over lost_game = true
  ∧ game_over (initial_game quiet_entropy) = false
  ∧ lives (handle_event quiet_entropy lost_game (KEYDOWN K_r)) = 3
  ∧ pedestrians (handle_event quiet_entropy lost_game (KEYDOWN K_r)) = [].
Proof.
  split; [reflexivity|]. split; [reflexivity|].
  pose proof (restart_resets quiet_entropy lost_game
                (initial_game quiet_entropy) eq_refl eq_refl) as H.
  destruct H as (_ & Hl & _ & _ & Hp & _). by split.
Defined.

(** C3. Running and GameOver are the only two states and one frame moves
    between them as follows.  The events of the frame leave the game over
    exactly when it was over and no restart key is among them; the tick
    that follows leaves it over exactly when it was over after the events
    or the lives are at most 0.  Hence a frame that ends with lives <= 0
    ends in GameOver, Running becomes GameOver only with lives <= 0, and
    GameOver becomes Running only through a restart key.  A frame that
    starts in GameOver and holds no restart key changes nothing of the
    simulation: score, lives, player position, pedestrians, spawn timer,
    spawn delay and the random cursor are what they were. *)
Theorem game_state_machine rect_move entropy g events :
  let ge := handle_events entropy events g in
  let g' := frame rect_move entropy events g in
  game_over ge = game_over g && negb (existsb is_restart events)
  ∧ game_over g' = game_over ge || (lives g' <=? 0)
  ∧ (lives g' ≤ 0 → game_over g' = true)
  ∧ (game_over g = false → game_over g' = true → lives g' ≤ 0)
  ∧ (game_over g = true → game_over g' = false →
     existsb is_restart events = true)
  ∧ (game_over g = true → existsb is_restart events = false →
     same_simulation g g').
Proof.
  intros ge g'.
  pose proof (handle_events_game_over entropy events g) as He.
  pose proof (frame_game_over rect_move entropy events g) as Hf.
  fold ge in He, Hf. fold g' in Hf.
  split; [done|]. split; [done|]. split; [|split; [|split]].
  - intros Hl. rewrite Hf. apply orb_true_iff. right. by apply Z.leb_le.
  - intros Hrun Hover. rewrite Hf, He, Hrun in Hover. by apply Z.leb_le.
  - intros Hover Hrun. rewrite Hf, He, Hover in Hrun.
    by destruct (existsb is_restart events).
  - intros Hover Hnr. subst g'. unfold frame.
    rewrite game_logic_over.
    + by apply handle_events_frozen.
    + fold ge. by rewrite He, Hover, Hnr.
Qed.

Lemma game_state_machine_witness :
  game_over lost_game = true
  ∧ existsb is_restart [KEYDOWN K_LEFT; OTHER_EVENT; KEYDOWN K_s] = false
  ∧ same_simulation lost_game
      (frame pygame_rect_move quiet_entropy
         [KEYDOWN K_LEFT; OTHER_EVENT; KEYDOWN K_s] lost_game).
Proof.
  split; [reflexivity|]. split; [reflexivity|].
  exact (proj2 (proj2 (proj2 (proj2 (proj2
           (game_state_machine pygame_rect_move quiet_entropy lost_game
              [KEYDOWN K_LEFT; OTHER_EVENT; KEYDOWN K_s])))))
           eq_refl eq_refl).
Defined.

(** C8. In a tick of a running game the spawn timer first goes up by one.
    When it has then reached the spawn delay, one pedestrian is appended to
    the list: its row is what [random.choice] draws from [0, 1], either of
    which can be drawn, its credited set is empty and its right edge is at
    0, left of the screen; the timer goes back to 0 and the next delay is
    what [random.randint] draws, after the row, from [MIN, MAX], every value
    of which can be drawn.  When it has not, the list and the delay are
    kept, nothing is drawn and the timer keeps its new value.  The rest of
    the tick leaves timer and delay alone and walks the list the spawn step
    produced. *)
Theorem spawn_countdown rect_move entropy g :
  game_over g = false →
  let g1 := spawn entropy g in
  let g' := game_logic rect_move entropy g in
  let ped := create_pedestrian (entropy (rng_pos g)) in
  (if next_spawn_delay g <=? spawn_timer g + 1 then
     pedestrians g1 = pedestrians g ++ [ped]
     ∧ spawn_timer g1 = 0
     ∧ next_spawn_delay g1
       = random_randint PEDESTRIAN_SPAWN_RATE_MIN PEDESTRIAN_SPAWN_RATE_MAX
           (entropy (S (rng_pos g)))
     ∧ PEDESTRIAN_SPAWN_RATE_MIN ≤ next_spawn_delay g1
       ≤ PEDESTRIAN_SPAWN_RATE_MAX
     ∧ rng_pos g1 = S (S (rng_pos g))
   else
     pedestrians g1 = pedestrians g
     ∧ spawn_timer g1 = spawn_timer g + 1
     ∧ next_spawn_delay g1 = next_spawn_delay g
     ∧ rng_pos g1 = rng_pos g)
  ∧ (row ped = random_choice [0; 1] (entropy (rng_pos g))
     ∧ index_in_range (row ped)
     ∧ scored_at_indices ped = ∅
     ∧ rect_right ped = 0)
  ∧ (∀ r, index_in_range r → ∃ u, row (create_pedestrian u) = r)
  ∧ (∀ v, PEDESTRIAN_SPAWN_RATE_MIN ≤ v ≤ PEDESTRIAN_SPAWN_RATE_MAX →
          ∃ u, random_randint PEDESTRIAN_SPAWN_RATE_MIN
                 PEDESTRIAN_SPAWN_RATE_MAX u = v)
  ∧ (∀ u, PEDESTRIAN_SPAWN_RATE_MIN
          ≤ random_randint PEDESTRIAN_SPAWN_RATE_MIN
              PEDESTRIAN_SPAWN_RATE_MAX u
          ≤ PEDESTRIAN_SPAWN_RATE_MAX)
  ∧ spawn_timer g' = spawn_timer g1
  ∧ next_spawn_delay g' = next_spawn_delay g1
  ∧ pedestrians g'
    = survivors rect_move (player_row_index g) (player_col_index g)
        (pedestrians g1).
Proof.
  intros Hrun g1 g' ped. split; [|split; [|split; [|split; [|split]]]].
  - subst g1. unfold spawn.
    destruct (next_spawn_delay g <=? spawn_timer g + 1); [|done].
    cbn [pedestrians spawn_timer next_spawn_delay rng_pos].
    repeat split; try done; by apply random_randint_range.
  - repeat split; try done. apply random_choice_rows_range.
  - intros r [-> | ->]; [by exists 0%nat | by exists 1%nat].
  - apply random_randint_onto.
  - intros u. by apply random_randint_range.
  - subst g'. by rewrite game_logic_running.
Qed.

(** The witness is the 200th frame of the run of [quiet_entropy] without
    events: the timer reaches the delay and the first pedestrian is
    spawned. *)
Lemma spawn_countdown_witness :
  game_over (idle_run pygame_rect_move quiet_entropy 199) = false
  ∧ (next_spawn_delay (idle_run pygame_rect_move quiet_entropy 199)
     <=? spawn_timer (idle_run pygame_rect_move quiet_entropy 199) + 1)
    = true
  ∧ pedestrians (idle_run pygame_rect_move quiet_entropy 199) = []
  ∧ pedestrians
      (spawn quiet_entropy (idle_run pygame_rect_move quiet_entropy 199))
    = pedestrians (idle_run pygame_rect_move quiet_entropy 199)
      ++ [create_pedestrian
            (quiet_entropy
               (rng_pos (idle_run pygame_rect_move quiet_entropy 199)))]
  ∧ spawn_timer
      (game_logic pygame_rect_move quiet_entropy
         (idle_run pygame_rect_move quiet_entropy 199)) = 0
  ∧ length
      (pedestrians
         (game_logic pygame_rect_move quiet_entropy
            (idle_run pygame_rect_move quiet_entropy 199))) = 1%nat.
Proof.
  assert (game_over (idle_run pygame_rect_move quiet_entropy 199) = false)
    as Hrun by (vm_compute; reflexivity).
  assert ((next_spawn_delay (idle_run pygame_rect_move quiet_entropy 199)
           <=? spawn_timer (idle_run pygame_rect_move quiet_entropy 199) + 1)
          = true) as Hdue by (vm_compute; reflexivity).
  split; [exact Hrun|]. split; [exact Hdue|].
  split; [vm_compute; reflexivity|].
  pose proof (spawn_countdown pygame_rect_move quiet_entropy
                (idle_run pygame_rect_move quiet_entropy 199) Hrun) as H.
  cbn zeta in H. rewrite Hdue in H.
  destruct H as ((Hp & Ht & _) & _ & _ & _ & _ & Ht' & _ & Hp').
  split; [exact Hp|]. split; [rewrite Ht'; exact Ht|].
  rewrite Hp'. vm_compute. reflexivity.
Defined.

Lemma left_slot_in_layout : (0, 240) ∈ enumerate MANHOLE_CENTERS_X.
Proof. rewrite enumerate_MANHOLE_CENTERS_X. apply elem_of_cons. by left. Qed.

Lemma right_slot_in_layout : (1, 560) ∈ enumerate MANHOLE_CENTERS_X.
Proof.
  rewrite enumerate_MANHOLE_CENTERS_X. apply elem_of_cons. right.
  by apply list_elem_of_singleton.
Qed.

Lemma moved_center_walked rect_move p :
  moved_center rect_move p = rect_centerx (walked rect_move p).
Proof. done. Qed.

(** A marked pedestrian leaves the list, an unmarked one stays, and the
    others are judged on their own. *)
Lemma survivors_middle rect_move pr pc before p after :
  survivors rect_move pr pc (before ++ p :: after)
  = survivors rect_move pr pc before
    ++ (if ped_marked rect_move pr pc p then []
        else [ped_next rect_move pr pc p])
    ++ survivors rect_move pr pc after.
Proof. by rewrite survivors_app, survivors_cons. Qed.

Lemma fallen_middle rect_move pr pc before p after :
  fallen rect_move pr pc (before ++ p :: after)
  = fallen rect_move pr pc before
    + (if ped_fell rect_move pr pc p then 1 else 0)
    + fallen rect_move pr pc after.
Proof. rewrite fallen_app, fallen_cons. lia. Qed.

Lemma gained_middle rect_move pr pc before p after :
  gained rect_move pr pc (before ++ p :: after)
  = gained rect_move pr pc before + score_gain rect_move pr pc p
    + gained rect_move pr pc after.
Proof. rewrite gained_app, gained_cons. lia. Qed.



(** C2. In a tick of a running game take a pedestrian whose centre, after
    its move, is inside the collision zone of a slot of its row that the
    player does not cover (the row or the column of the player differs).
    Its turn in the loop takes exactly one life, marks it for removal and
    changes neither the score nor its credited set; the loop over the
    columns stops at that slot, whatever columns would follow; over the
    tick the lives go down by 1 on its account and it is gone from the
    list. *)
Theorem uncovered_pass_falls rect_move entropy g before p after
    col manhole_x :
  game_over g = false →
  pedestrians (spawn entropy g) = before ++ p :: after →
  (col, manhole_x) ∈ enumerate MANHOLE_CENTERS_X →
  in_zone manhole_x (rect_centerx (walked rect_move p)) = true →
  ¬ (row p = player_row_index g ∧ col = player_col_index g) →
  let pr := player_row_index g in
  let pc := player_col_index g in
  let g' := game_logic rect_move entropy g in
  (∀ i c,
     process_pedestrian rect_move pr pc i p c
     = (walked rect_move p,
        {| c_score := c_score c; c_lives := c_lives c - 1;
           c_remove := c_remove c ++ [i] |},
        true))
  ∧ (∀ i c rest,
       check_manholes pr pc i (row p) (rect_centerx (walked rect_move p))
         ((col, manhole_x) :: rest) (scored_at_indices p) c
       = (scored_at_indices p,
          {| c_score := c_score c; c_lives := c_lives c - 1;
             c_remove := c_remove c ++ [i] |},
          true))
  ∧ lives g'
    = lives g - fallen rect_move pr pc before - 1
      - fallen rect_move pr pc after
  ∧ pedestrians g'
    = survivors rect_move pr pc before ++ survivors rect_move pr pc after.
Proof.
  intros Hrun Hpeds Hin Hz Hopen pr pc g'.
  subst g'. unfold pr, pc. clear pr pc.
  set (pr := player_row_index g) in *. set (pc := player_col_index g) in *.
  pose proof Hz as Hz'. rewrite <- moved_center_walked in Hz'.
  pose proof (outcome_uncovered rect_move pr pc col manhole_x p Hin Hz' Hopen)
    as Ho.
  split; [|split; [|split]].
  - intros i c.
    rewrite (process_pedestrian_outcome _ _ _ i p c _ 0 1 [0%nat] true Ho
               eq_refl).
    unfold walked. counters_eq.
  - intros i c rest. cbn [check_manholes]. rewrite Hz.
    destruct ((row p =? pr) && (col =? pc)) eqn:E; [|done].
    apply andb_true_iff in E as [?%Z.eqb_eq ?%Z.eqb_eq]. by destruct Hopen.
  - rewrite game_logic_running by done. cbn [lives]. fold pr pc.
    rewrite Hpeds, fallen_middle. unfold ped_fell. rewrite Ho.
    cbn [fst snd]. lia.
  - rewrite game_logic_running by done. cbn [pedestrians]. fold pr pc.
    rewrite Hpeds, survivors_middle. unfold ped_marked. rewrite Ho.
    done.
Qed.

Lemma uncovered_pass_falls_witness :
  pedestrians (spawn quiet_entropy street_game)
  = [walker_a] ++ walker_b :: [walker_c; walker_d]
  ∧ in_zone 240 (rect_centerx (walked pygame_rect_move walker_b)) = true
  ∧ ¬ (row walker_b = player_row_index street_game
       ∧ 0 = player_col_index street_game)
  ∧ pedestrians (game_logic pygame_rect_move quiet_entropy street_game)
    = survivors pygame_rect_move 0 0 [walker_a]
      ++ survivors pygame_rect_move 0 0 [walker_c; walker_d].
Proof.
  assert (¬ (row walker_b = player_row_index street_game
             ∧ 0 = player_col_index street_game)) as Hopen.
  { intros [Hrow _]. discriminate Hrow. }
  split; [reflexivity|]. split; [reflexivity|]. split; [exact Hopen|].
  pose proof (uncovered_pass_falls pygame_rect_move quiet_entropy
                street_game [walker_a] walker_b [walker_c; walker_d]
                0 240 eq_refl eq_refl left_slot_in_layout eq_refl Hopen) as H.
  exact (proj2 (proj2 (proj2 H))).
Defined.

(** C5, as stated, fails.  The pedestrian [walker_e] moves to x = 791: its
    right edge, the edge that leads, is at 811, past the right boundary at
    800, and it does not fall; yet its turn in the loop leaves the score
    alone and does not mark it, and after the tick the score of
    [late_game] is unchanged and the pedestrian is still in the list. *)
Lemma leading_edge_counterexample :
  ¬ leading_edge_rule pygame_rect_move 0 1 0 walker_e
      {| c_score := 2; c_lives := 3; c_remove := [] |}
  ∧ SCREEN_WIDTH < rect_right (walked pygame_rect_move walker_e)
  ∧ score (game_logic pygame_rect_move quiet_entropy late_game)
    = score late_game
  ∧ pedestrians (game_logic pygame_rect_move quiet_entropy late_game)
    = [walked pygame_rect_move walker_e].
Proof.
  split; [|split; [|split]].
  - unfold leading_edge_rule.
    assert (process_pedestrian pygame_rect_move 0 1 0 walker_e
              {| c_score := 2; c_lives := 3; c_remove := [] |}
            = (walked pygame_rect_move walker_e,
               {| c_score := 2; c_lives := 3; c_remove := [] |}, false))
      as -> by (by vm_compute).
    intros H. destruct H as [Hscore _]; [done|by vm_compute|].
    cbn in Hscore. discriminate Hscore.
  - by vm_compute.
  - by vm_compute.
  - by vm_compute.
Qed.

(** C5, amended.  In a tick of a running game take a pedestrian whose left
    edge, after its move, is past the right boundary of the screen.  It
    does not fall; its turn in the loop adds exactly 5 to the score, takes
    no life and marks it for removal; over the tick the score grows by 5 on
    its account and it is gone from the list. *)
Theorem offscreen_bonus rect_move entropy g before p after :
  game_over g = false →
  pedestrians (spawn entropy g) = before ++ p :: after →
  SCREEN_WIDTH < rect_left (walked rect_move p) →
  let pr := player_row_index g in
  let pc := player_col_index g in
  let g' := game_logic rect_move entropy g in
  (∀ i c,
     process_pedestrian rect_move pr pc i p c
     = (walked rect_move p,
        {| c_score := c_score c + 5; c_lives := c_lives c;
           c_remove := c_remove c ++ [i] |},
        false))
  ∧ score g'
    = score g + gained rect_move pr pc before + 5
      + gained rect_move pr pc after
  ∧ pedestrians g'
    = survivors rect_move pr pc before ++ survivors rect_move pr pc after.
Proof.
  intros Hrun Hpeds Hleft pr pc g'.
  subst g'. unfold pr, pc. clear pr pc.
  set (pr := player_row_index g) in *. set (pc := player_col_index g) in *.
  pose proof (outcome_exit rect_move pr pc p Hleft) as Ho.
  split; [|split].
  - intros i c.
    rewrite (process_pedestrian_outcome _ _ _ i p c _ (0 + 5) 0 [0%nat] false
               Ho eq_refl).
    unfold walked. counters_eq.
  - rewrite game_logic_running by done. cbn [score]. fold pr pc.
    rewrite Hpeds, gained_middle. unfold score_gain. rewrite Ho.
    cbn [fst snd c_score]. lia.
  - rewrite game_logic_running by done. cbn [pedestrians]. fold pr pc.
    rewrite Hpeds, survivors_middle. unfold ped_marked. rewrite Ho.
    done.
Qed.

Lemma offscreen_bonus_witness :
  pedestrians (spawn quiet_entropy street_game)
  = [walker_a; walker_b] ++ walker_c :: [walker_d]
  ∧ SCREEN_WIDTH < rect_left (walked pygame_rect_move walker_c)
  ∧ pedestrians (game_logic pygame_rect_move quiet_entropy street_game)
    = survivors pygame_rect_move 0 0 [walker_a; walker_b]
      ++ survivors pygame_rect_move 0 0 [walker_d].
Proof.
  assert (SCREEN_WIDTH < rect_left (walked pygame_rect_move walker_c))
    as Hleft by reflexivity.
  split; [reflexivity|]. split; [exact Hleft|].
  pose proof (offscreen_bonus pygame_rect_move quiet_entropy street_game
                [walker_a; walker_b] walker_c [walker_d]
                eq_refl eq_refl Hleft) as H.
  exact (proj2 (proj2 H)).
Defined.

(** ** Every pedestrian has one of four turns *)

Lemma outcome_cases rect_move pr pc p :
  (∃ col manhole_x,
     (col, manhole_x) ∈ enumerate MANHOLE_CENTERS_X
     ∧ ((row p, col) ∉ scored_at_indices p)
     ∧ outcome rect_move pr pc p
       = (credited rect_move col p,
          {| c_score := 1; c_lives := 0; c_remove := [] |}, false))
  ∨ outcome rect_move pr pc p
    = (walked rect_move p,
       {| c_score := 0; c_lives := 0; c_remove := [] |}, false)
  ∨ outcome rect_move pr pc p
    = (walked rect_move p,
       {| c_score := 0; c_lives := 0 - 1; c_remove := [0%nat] |}, true)
  ∨ outcome rect_move pr pc p
    = (walked rect_move p,
       {| c_score := 0 + 5; c_lives := 0; c_remove := [0%nat] |}, false).
Proof.
  destruct (zone_slot (moved_center rect_move p)) as [[col manhole_x]|] eqn:E.
  - apply zone_slot_Some in E as [Hin Hz].
    destruct (decide (row p = pr ∧ col = pc)) as [[Hr Hc]|Hopen].
    + pose proof (outcome_covered rect_move pr pc col manhole_x p Hin Hz Hr Hc)
        as Ho. cbn zeta in Ho.
      destruct (bool_decide ((row p, col) ∈ scored_at_indices p)) eqn:Em.
      * rewrite andb_false_r in Ho. right. by left.
      * destruct (manhole_x <=? moved_center rect_move p);
          [|right; by left].
        left. exists col, manhole_x. split; [done|]. split; [|done].
        by apply bool_decide_eq_false in Em.
    + right. right. left. by eapply outcome_uncovered.
  - destruct (SCREEN_WIDTH <? rect_move (rect_x p)) eqn:Ex.
    + right. right. right. apply outcome_exit. by apply Z.ltb_lt.
    + right. left. rewrite outcome_slot. unfold slot_outcome.
      by rewrite E, Ex.
Qed.


(** C9. In a tick of a running game: the turn of a pedestrian appends its
    position to the removal list at most once; a turn that ends in a fall
    takes exactly one life, leaves the score (so no bonus of 5) and the
    credited set alone and appends the position once, and a turn that does
    not takes no life.  The removal list of the tick therefore holds no
    position twice and only positions inside the list; the removal pass
    visits it from the last position down, every visit passes the range
    test, one pedestrian is deleted per visit, and what is left are the
    pedestrians that were not marked. *)
Theorem single_removal rect_move entropy g :
  game_over g = false →
  let pr := player_row_index g in
  let pc := player_col_index g in
  let walk :=
    move_pedestrians rect_move pr pc 0 (pedestrians (spawn entropy g))
      {| c_score := score g; c_lives := lives g; c_remove := [] |} in
  let marks := c_remove walk.2 in
  (∀ p i c,
     let turn := process_pedestrian rect_move pr pc i p c in
     (c_remove turn.1.2 = c_remove c ∨ c_remove turn.1.2 = c_remove c ++ [i])
     ∧ (turn.2 = true →
        c_lives turn.1.2 = c_lives c - 1
        ∧ c_score turn.1.2 = c_score c
        ∧ c_remove turn.1.2 = c_remove c ++ [i]
        ∧ scored_at_indices turn.1.1 = scored_at_indices p)
     ∧ (turn.2 = false → c_lives turn.1.2 = c_lives c))
  ∧ NoDup marks
  ∧ Forall (λ index, index < length walk.1)%nat marks
  ∧ sorted_reverse_set marks = reverse marks
  ∧ guards_pass walk.1 (sorted_reverse_set marks) = true
  ∧ (length (remove_pedestrians marks walk.1) + length marks)%nat
    = length walk.1
  ∧ pedestrians (game_logic rect_move entropy g)
    = remove_pedestrians marks walk.1
  ∧ remove_pedestrians marks walk.1
    = survivors rect_move pr pc (pedestrians (spawn entropy g)).
Proof.
  intros Hrun pr pc walk marks.
  assert (walk.1 = ped_next rect_move pr pc <$> pedestrians (spawn entropy g))
    as Hwalk by (unfold walk; by rewrite move_pedestrians_summary).
  assert (marks
          = flagged_indices 0
              (ped_marked rect_move pr pc <$> pedestrians (spawn entropy g)))
    as Hmarks by (unfold marks, walk; by rewrite move_pedestrians_summary).
  pose proof (flagged_indices_sorted 0
                (ped_marked rect_move pr pc <$> pedestrians (spawn entropy g)))
    as Hsorted.
  pose proof (flagged_indices_bounds 0
                (ped_marked rect_move pr pc <$> pedestrians (spawn entropy g)))
    as Hbounds.
  rewrite <- Hmarks in Hsorted, Hbounds.
  assert (Forall (λ index, index < length walk.1)%nat marks) as Hin.
  { rewrite Hwalk, length_fmap. rewrite length_fmap in Hbounds.
    eapply Forall_impl; [exact Hbounds|]. simpl. intros j ?. lia. }
  split; [|split; [|split; [|split; [|split; [|split; [|split]]]]]].
  - intros p i c turn. subst turn.
    destruct (outcome_cases rect_move pr pc p)
      as [(col & manhole_x & _ & _ & Ho)|[Ho|[Ho|Ho]]].
    + rewrite (process_pedestrian_outcome _ _ _ i p c _ 1 0 [] false Ho
                 eq_refl).
      cbn [fst snd c_score c_lives c_remove]. rewrite app_nil_r.
      split; [by left|]. split; [done|]. intros _. lia.
    + rewrite (process_pedestrian_outcome _ _ _ i p c _ 0 0 [] false Ho
                 eq_refl).
      cbn [fst snd c_score c_lives c_remove]. rewrite app_nil_r.
      split; [by left|]. split; [done|]. intros _. lia.
    + rewrite (process_pedestrian_outcome _ _ _ i p c _ 0 1 [0%nat] true Ho
                 eq_refl).
      cbn [fst snd c_score c_lives c_remove].
      split; [by right|]. split; [|done]. intros _.
      split; [done|]. split; [lia|]. done.
    + rewrite (process_pedestrian_outcome _ _ _ i p c _ (0 + 5) 0 [0%nat]
                 false Ho eq_refl).
      cbn [fst snd c_score c_lives c_remove].
      split; [by right|]. split; [done|]. intros _. lia.
  - by apply ascending_NoDup.
  - done.
  - by apply sorted_reverse_set_ascending.
  - rewrite sorted_reverse_set_ascending by done.
    by apply guards_pass_descending.
  - rewrite Hmarks, remove_pedestrians_flagged, Hwalk.
    apply keep_unflagged_length. by rewrite !length_fmap.
  - unfold game_logic. rewrite Hrun. cbn [negb].
    destruct (spawn_keeps entropy g) as (Hs & Hl & Hr & Hc & _).
    rewrite Hs, Hl, Hr, Hc. fold pr pc walk.
    by destruct walk as [peds c].
  - rewrite Hmarks, remove_pedestrians_flagged, Hwalk.
    apply keep_unflagged_marked.
Qed.

Lemma single_removal_witness :
  game_over street_game = false
  ∧ length (pedestrians (game_logic pygame_rect_move quiet_entropy street_game))
    = 1%nat.
Proof.
  split; [reflexivity|].
  pose proof (single_removal pygame_rect_move quiet_entropy street_game
                eq_refl) as H.
  destruct H as (_ & _ & _ & _ & _ & _ & Hp & _). rewrite Hp. reflexivity.
Defined.

Lemma idle_run_reachable rect_move entropy n :
  Reachable rect_move entropy (idle_run rect_move entropy n).
Proof. apply main_loop_reachable. constructor. Qed.



(** The tick of [street_game], a state set up by hand, not taken from a
    run, with more falls than lives: two of its pedestrians fall, and its
    one life becomes -1. *)
Lemma street_game_two_falls :
  fallen pygame_rect_move 0 0 (pedestrians (spawn quiet_entropy street_game))
  = 2
  ∧ lives (game_logic pygame_rect_move quiet_entropy street_game) = -1
  ∧ game_over (game_logic pygame_rect_move quiet_entropy street_game) = true.
Proof. repeat split; vm_compute; reflexivity. Qed.

(** ** The credited set along a run *)

Lemma credited_ok_size p : credited_ok p → (size (scored_at_indices p) ≤ 2)%nat.
Proof.
  unfold credited_ok. intros Hsub.
  etrans; [by apply subseteq_size|].
  rewrite size_union, !size_singleton; [done|].
  apply disjoint_singleton_l. rewrite elem_of_singleton. by intros [=].
Qed.

Lemma credited_ok_create u : credited_ok (create_pedestrian u).
Proof. unfold credited_ok, create_pedestrian. cbn. apply empty_subseteq. Qed.

Lemma credited_ok_next rect_move pr pc p :
  credited_ok p → credited_ok (ped_next rect_move pr pc p).
Proof.
  unfold credited_ok, ped_next. intros Hok.
  destruct (outcome_cases rect_move pr pc p)
    as [(col & manhole_x & Hin & _ & Ho)|[Ho|[Ho|Ho]]];
    rewrite Ho; cbn [fst snd walked credited row scored_at_indices];
    try done.
  apply union_subseteq. split; [|done].
  apply singleton_subseteq_l, elem_of_union.
  destruct (slot_bounds _ _ Hin) as [[-> _]|[-> _]];
    [left|right]; by apply elem_of_singleton.
Qed.

Lemma credited_ok_survivors rect_move pr pc peds :
  Forall credited_ok peds →
  Forall credited_ok (survivors rect_move pr pc peds).
Proof.
  intros Hok. unfold survivors. apply Forall_fmap.
  apply Forall_forall. intros p Hp.
  apply list_elem_of_filter in Hp as [_ Hp].
  apply credited_ok_next. rewrite Forall_forall in Hok. by apply Hok.
Qed.

Lemma credited_ok_spawn entropy g :
  Forall credited_ok (pedestrians g) →
  Forall credited_ok (pedestrians (spawn entropy g)).
Proof.
  intros Hok. unfold spawn. destruct (_ <=? _); cbn [pedestrians]; [|done].
  apply Forall_app. split; [done|].
  apply Forall_singleton, credited_ok_create.
Qed.

Lemma credited_ok_handle_event entropy g event :
  Forall credited_ok (pedestrians g) →
  Forall credited_ok (pedestrians (handle_event entropy g event)).
Proof.
  intros Hok. destruct event as [|key|]; cbn [handle_event]; try done.
  unfold handle_keydown.
  destruct (game_over g); destruct key; cbn; done.
Qed.

Lemma credited_ok_handle_events entropy events g :
  Forall credited_ok (pedestrians g) →
  Forall credited_ok (pedestrians (handle_events entropy events g)).
Proof.
  unfold handle_events. revert g.
  induction events as [|e events IH]; intros g Hok; simpl; [done|].
  by apply IH, credited_ok_handle_event.
Qed.

Lemma credited_ok_game_logic rect_move entropy g :
  Forall credited_ok (pedestrians g) →
  Forall credited_ok (pedestrians (game_logic rect_move entropy g)).
Proof.
  intros Hok. destruct (game_over g) eqn:E.
  - by rewrite game_logic_over.
  - rewrite game_logic_running by done. cbn [pedestrians].
    by apply credited_ok_survivors, credited_ok_spawn.
Qed.

Lemma credited_ok_reachable rect_move entropy g :
  Reachable rect_move entropy g → Forall credited_ok (pedestrians g).
Proof.
  induction 1 as [|g events Hg IH Hrun].
  - constructor.
  - unfold frame.
    by apply credited_ok_game_logic, credited_ok_handle_events.
Qed.

(** C6. Along every run, at the top of every frame, the credited set of
    every pedestrian in the list holds only slots of the pedestrian's own
    row, so that it has at most 2 elements, and as a set it lists no slot
    twice.  A pedestrian is created with the empty set.  A turn in the loop
    only adds to the set, and the score moves with it: either the score
    grows by the number of slots the turn added, which is 0 or 1, or the set
    is unchanged and the score grows by the bonus of 5; so no slot is
    credited twice toward the score. *)
Theorem credited_set_invariant rect_move entropy g p :
  Reachable rect_move entropy g →
  p ∈ pedestrians g →
  scored_at_indices p ⊆ {[(row p, 0); (row p, 1)]}
  ∧ (size (scored_at_indices p) ≤ 2)%nat
  ∧ NoDup (elements (scored_at_indices p))
  ∧ (∀ u, scored_at_indices (create_pedestrian u) = ∅)
  ∧ (∀ pr pc i c,
       let turn := process_pedestrian rect_move pr pc i p c in
       let old := scored_at_indices p in
       let new := scored_at_indices turn.1.1 in
       old ⊆ new
       ∧ (size new ≤ size old + 1)%nat
       ∧ (size new ≤ 2)%nat
       ∧ (c_score turn.1.2
          = c_score c + (Z.of_nat (size new) - Z.of_nat (size old))
          ∨ (new = old ∧ c_score turn.1.2 = c_score c + 5))).
Proof.
  intros Hreach Hp.
  assert (credited_ok p) as Hok.
  { pose proof (credited_ok_reachable _ _ _ Hreach) as Hall.
    rewrite Forall_forall in Hall. by apply Hall. }
  split; [exact Hok|]. split; [by apply credited_ok_size|].
  split; [apply NoDup_elements|]. split; [done|].
  intros pr pc i c turn old new.
  assert (new = scored_at_indices (ped_next rect_move pr pc p)) as Hnew.
  { unfold new, turn. by rewrite process_pedestrian_counters. }
  assert (size new ≤ 2)%nat as Hsize.
  { rewrite Hnew. by apply credited_ok_size, credited_ok_next. }
  subst new old turn.
  destruct (outcome_cases rect_move pr pc p)
    as [(col & manhole_x & _ & Hfresh & Ho)|[Ho|[Ho|Ho]]].
  - rewrite (process_pedestrian_outcome _ _ _ i p c _ 1 0 [] false Ho
               eq_refl) in *.
    cbn [fst snd c_score credited scored_at_indices] in *.
    assert (size ({[(row p, col)]} ∪ scored_at_indices p)
            = S (size (scored_at_indices p))) as Hs.
    { rewrite size_union, size_singleton; [done|].
      by apply disjoint_singleton_l. }
    split; [apply union_subseteq_r|]. split; [lia|]. split; [done|].
    left. lia.
  - rewrite (process_pedestrian_outcome _ _ _ i p c _ 0 0 [] false Ho
               eq_refl) in *.
    cbn [fst snd c_score walked scored_at_indices] in *.
    split; [done|]. split; [lia|]. split; [done|]. left. lia.
  - rewrite (process_pedestrian_outcome _ _ _ i p c _ 0 1 [0%nat] true Ho
               eq_refl) in *.
    cbn [fst snd c_score walked scored_at_indices] in *.
    split; [done|]. split; [lia|]. split; [done|]. left. lia.
  - rewrite (process_pedestrian_outcome _ _ _ i p c _ (0 + 5) 0 [0%nat]
               false Ho eq_refl) in *.
    cbn [fst snd c_score walked scored_at_indices] in *.
    split; [done|]. split; [lia|]. split; [done|]. right. split; [done|lia].
Qed.

Lemma credited_set_invariant_witness :
  Reachable pygame_rect_move quiet_entropy
    (idle_run pygame_rect_move quiet_entropy 334)
  ∧ walker_f ∈ pedestrians (idle_run pygame_rect_move quiet_entropy 334)
  ∧ (size (scored_at_indices walker_f) ≤ 2)%nat.
Proof.
  assert (walker_f ∈ pedestrians (idle_run pygame_rect_move quiet_entropy 334))
    as Hin.
  { assert (pedestrians (idle_run pygame_rect_move quiet_entropy 334)
            = [walker_f]) as ->
      by (vm_compute; reflexivity).
    apply elem_of_cons. by left. }
  split; [apply idle_run_reachable|]. split; [exact Hin|].
  exact (proj1 (proj2 (credited_set_invariant pygame_rect_move quiet_entropy
                         (idle_run pygame_rect_move quiet_entropy 334)
                         walker_f
                         (idle_run_reachable pygame_rect_move quiet_entropy
                            334)
                         Hin))).
Defined.

(** * Further properties of the program *)

(** ** The loop flag *)

Lemma same_simulation_set_running g g' :
  same_simulation g g' → g' = set_running g (running g').
Proof.
  unfold same_simulation, set_running. destruct g, g'. cbn.
  intros (-> & -> & -> & -> & -> & -> & -> & -> & ->). done.
Qed.

Lemma set_running_same_simulation g flag :
  same_simulation g (set_running g flag).
Proof. unfold same_simulation. by repeat split. Qed.

Lemma handle_event_set_running entropy g flag event :
  is_quit event = false →
  handle_event entropy (set_running g flag) event
  = set_running (handle_event entropy g event) flag.
Proof.
  destruct event as [|key|]; [done| |done]. intros _. cbn [handle_event].
  unfold handle_keydown. cbn [set_running game_over].
  by destruct (game_over g); destruct key.
Qed.

Lemma game_logic_set_running rect_move entropy g flag :
  game_logic rect_move entropy (set_running g flag)
  = set_running (game_logic rect_move entropy g) flag.
Proof.
  destruct (game_over g) eqn:E.
  - by rewrite !game_logic_over.
  - rewrite !game_logic_running by done. unfold spawn.
    cbn [set_running spawn_timer next_spawn_delay].
    by destruct (next_spawn_delay g <=? spawn_timer g + 1).
Qed.

Lemma handle_events_set_running entropy events g flag :
  handle_events entropy events (set_running g flag)
  = set_running
      (handle_events entropy (filter (λ e, is_quit e = false) events) g)
      (flag && negb (existsb is_quit events)).
Proof.
  unfold handle_events. revert g flag.
  induction events as [|e events IH]; intros g flag.
  - cbn. by rewrite andb_true_r.
  - rewrite filter_cons. cbn [foldl existsb].
    destruct e as [|key|]; cbn [is_quit]; destruct (decide _); try done.
    + cbn [handle_event]. replace (set_running (set_running g flag) false)
        with (set_running g false) by done.
      rewrite IH. cbn [orb negb]. by rewrite andb_false_r.
    + cbn [foldl]. rewrite (handle_event_set_running entropy g flag) by done.
      by rewrite IH.
    + cbn [foldl handle_event]. by rewrite IH.
Qed.

Lemma set_running_id g : set_running g (running g) = g.
Proof. by destruct g. Qed.

(** X1. A [QUIT] event does nothing but clear the loop flag: the events
    after it in the batch are handled and the tick of the frame runs as if
    it had not been there.  The frame of a batch and the frame of the batch
    without its [QUIT] events end in the same simulation state; the flag is
    kept by the second and is, after the first, what it was and no [QUIT]
    was in the batch. *)
Theorem quit_only_clears_running rect_move entropy events g :
  let others := filter (λ e, is_quit e = false) events in
  same_simulation (frame rect_move entropy others g)
    (frame rect_move entropy events g)
  ∧ running (frame rect_move entropy others g) = running g
  ∧ running (frame rect_move entropy events g)
    = running g && negb (existsb is_quit events).
Proof.
  intros others. unfold frame.
  assert (∀ g0, running (game_logic rect_move entropy g0) = running g0)
    as Hlogic.
  { intros g0. destruct (game_over g0) eqn:E.
    - by rewrite game_logic_over.
    - by rewrite game_logic_running. }
  assert (running (handle_events entropy others g) = running g) as Hothers.
  { rewrite <- (set_running_id g) at 1.
    rewrite handle_events_set_running. cbn [set_running running].
    assert (existsb is_quit others = false) as ->.
    { unfold others. clear. induction events as [|e events IH]; [done|].
      rewrite filter_cons. destruct (decide _) as [He|]; [|done].
      cbn [existsb]. by rewrite He, IH. }
    by rewrite andb_true_r. }
  rewrite <- (set_running_id g) at 2 5.
  rewrite handle_events_set_running, game_logic_set_running.
  fold others. split; [apply set_running_same_simulation|].
  split; [by rewrite Hlogic|]. done.
Qed.

Lemma main_loop_stopped rect_move entropy batches g :
  running g = false → main_loop rect_move entropy batches g = g.
Proof. intros Hstop. destruct batches; cbn; [done|]. by rewrite Hstop. Qed.

Lemma main_loop_app rect_move entropy b1 b2 g :
  main_loop rect_move entropy (b1 ++ b2) g
  = main_loop rect_move entropy b2 (main_loop rect_move entropy b1 g).
Proof.
  revert g. induction b1 as [|events b1 IH]; intros g; [done|].
  cbn [app main_loop]. destruct (running g) eqn:E; [apply IH|].
  by rewrite main_loop_stopped.
Qed.

(** X2. The loop ends with the frame that receives [QUIT]: that frame is
    completed, the loop flag is then off, and no later batch of events is
    looked at. *)
Theorem quit_ends_the_loop rect_move entropy before batch rest g :
  running (main_loop rect_move entropy before g) = true →
  existsb is_quit batch = true →
  main_loop rect_move entropy (before ++ batch :: rest) g
  = frame rect_move entropy batch (main_loop rect_move entropy before g)
  ∧ running (main_loop rect_move entropy (before ++ batch :: rest) g)
    = false.
Proof.
  intros Hrun Hquit. rewrite main_loop_app. cbn [main_loop]. rewrite Hrun.
  assert (running
            (frame rect_move entropy batch
               (main_loop rect_move entropy before g)) = false) as Hoff.
  { unfold frame.
    rewrite <- (set_running_id (main_loop rect_move entropy before g)).
    rewrite handle_events_set_running, game_logic_set_running.
    cbn [set_running running]. rewrite Hquit. apply andb_false_r. }
  by rewrite main_loop_stopped.
Qed.

Lemma quit_ends_the_loop_witness :
  running
    (main_loop pygame_rect_move quiet_entropy [[KEYDOWN K_d]]
       (initial_game quiet_entropy)) = true
  ∧ existsb is_quit [KEYDOWN K_s; QUIT; KEYDOWN K_a] = true
  ∧ player_col_index
      (main_loop pygame_rect_move quiet_entropy
         ([[KEYDOWN K_d]]
          ++ [KEYDOWN K_s; QUIT; KEYDOWN K_a] :: [[KEYDOWN K_a]; []])
         (initial_game quiet_entropy)) = 0.
Proof.
  split; [reflexivity|]. split; [reflexivity|].
  rewrite (proj1 (quit_ends_the_loop pygame_rect_move quiet_entropy
                    [[KEYDOWN K_d]] [KEYDOWN K_s; QUIT; KEYDOWN K_a]
                    [[KEYDOWN K_a]; []] (initial_game quiet_entropy)
                    eq_refl eq_refl)).
  reflexivity.
Defined.

(** X3. With two columns and two rows, left and right are the same move
    and so are up and down, in every state [g0] whatever (running or over,
    on the lattice or not); and while the game is running with the player
    on the lattice, pressing a move key twice puts the player back where it
    was and changes nothing else. *)
Theorem move_keys_toggle entropy g g0 key dr dc :
  move_of_key key = Some (dr, dc) →
  game_over g = false →
  index_in_range (player_row_index g) →
  index_in_range (player_col_index g) →
  handle_keydown entropy key (handle_keydown entropy key g) = g
  ∧ handle_keydown entropy K_LEFT g0 = handle_keydown entropy K_RIGHT g0
  ∧ handle_keydown entropy K_UP g0 = handle_keydown entropy K_DOWN g0
  ∧ handle_event entropy g0 (KEYDOWN K_a)
    = handle_event entropy g0 (KEYDOWN K_d)
  ∧ handle_event entropy g0 (KEYDOWN K_w)
    = handle_event entropy g0 (KEYDOWN K_s).
Proof.
  intros Hkey Hrun Hr Hc.
  assert (∀ v, (v - 1) mod 2 = (v + 1) mod 2) as Hsame.
  { intros v. replace (v + 1) with (v - 1 + 1 * 2) by lia.
    by rewrite Z.mod_add. }
  split; [|split; [|split; [|split]]].
  - unfold handle_keydown. destruct g as [sc lv r c peds over t d run pos].
    cbn in Hrun, Hr, Hc. subst over.
    destruct key; simplify_eq/=;
      rewrite ?len_MANHOLE_CENTERS_X_eq, ?len_PATH_CENTERS_Y_eq;
      unfold set_player_col_index, set_player_row_index; cbn; f_equal;
      destruct Hr as [-> | ->], Hc as [-> | ->]; done.
  - unfold handle_keydown. destruct (game_over g0); [done|].
    rewrite len_MANHOLE_CENTERS_X_eq. by rewrite Hsame.
  - unfold handle_keydown. destruct (game_over g0); [done|].
    rewrite len_PATH_CENTERS_Y_eq. by rewrite Hsame.
  - cbn [handle_event]. unfold handle_keydown.
    destruct (game_over g0); [done|].
    rewrite len_MANHOLE_CENTERS_X_eq. by rewrite Hsame.
  - cbn [handle_event]. unfold handle_keydown.
    destruct (game_over g0); [done|].
    rewrite len_PATH_CENTERS_Y_eq. by rewrite Hsame.
Qed.

Lemma move_keys_toggle_witness :
  move_of_key K_w = Some (-1, 0)
  ∧ game_over street_game = false
  ∧ handle_keydown quiet_entropy K_w
      (handle_keydown quiet_entropy K_w street_game) = street_game
  ∧ handle_keydown quiet_entropy K_LEFT lost_game
    = handle_keydown quiet_entropy K_RIGHT lost_game.
Proof.
  split; [reflexivity|]. split; [reflexivity|].
  pose proof (move_keys_toggle quiet_entropy street_game lost_game K_w (-1) 0
                eq_refl eq_refl (or_introl eq_refl) (or_introl eq_refl))
    as H.
  destruct H as (Htwice & Hlr & _). by split.
Defined.

(** ** Invariants of a run *)

(** A property of the initial state that every event and every tick keeps
    holds at the top of every frame. *)
Lemma reachable_invariant rect_move entropy (P : Game → Prop) :
  P (initial_game entropy) →
  (∀ g event, P g → P (handle_event entropy g event)) →
  (∀ g, P g → P (game_logic rect_move entropy g)) →
  ∀ g, Reachable rect_move entropy g → P g.
Proof.
  intros Hinit Hevent Htick g Hg.
  induction Hg as [|g events Hg IH Hrun]; [done|].
  unfold frame. apply Htick. unfold handle_events.
  clear Hg Hrun. revert g IH.
  induction events as [|e events IHe]; intros g Hg; [done|].
  cbn [foldl]. by apply IHe, Hevent.
Qed.

Lemma score_gain_cases rect_move pr pc p :
  score_gain rect_move pr pc p = 0
  ∨ score_gain rect_move pr pc p = 1
  ∨ score_gain rect_move pr pc p = 5.
Proof.
  unfold score_gain.
  destruct (outcome_cases rect_move pr pc p)
    as [(col & manhole_x & _ & _ & Ho)|[Ho|[Ho|Ho]]]; rewrite Ho; cbn; auto.
Qed.

Lemma gained_nonneg rect_move pr pc peds : 0 ≤ gained rect_move pr pc peds.
Proof.
  induction peds as [|p peds IH]; [done|]. rewrite gained_cons.
  destruct (score_gain_cases rect_move pr pc p) as [-> | [-> | ->]]; lia.
Qed.

Lemma fallen_nonneg rect_move pr pc peds : 0 ≤ fallen rect_move pr pc peds.
Proof. unfold fallen. lia. Qed.

Lemma tally_ok_handle_event entropy g event :
  tally_ok g → tally_ok (handle_event entropy g event).
Proof.
  unfold tally_ok. intros Hok. destruct event as [|key|]; [done| |done].
  cbn [handle_event]. unfold handle_keydown.
  destruct (game_over g) eqn:E; destruct key; cbn; rewrite ?E; try done.
Qed.

Lemma tally_ok_game_logic rect_move entropy g :
  tally_ok g → tally_ok (game_logic rect_move entropy g).
Proof.
  unfold tally_ok. intros (Hs & Hl & Hover).
  destruct (game_over g) eqn:E.
  - rewrite game_logic_over by done. by rewrite E.
  - rewrite game_logic_running by done. cbn [score lives game_over].
    pose proof (gained_nonneg rect_move (player_row_index g)
                  (player_col_index g) (pedestrians (spawn entropy g))).
    pose proof (fallen_nonneg rect_move (player_row_index g)
                  (player_col_index g) (pedestrians (spawn entropy g))).
    split; [lia|]. split; [lia|].
    destruct (_ <=? 0) eqn:El; [apply Z.leb_le in El|apply Z.leb_gt in El];
      lia.
Qed.

(** X4. Along every run, at the top of every frame: the score is not
    negative, the lives are at most 3, a running game has at least one
    life and a game that is over has none left.  In any state whatever, a
    tick never lowers the score and never raises the lives. *)
Theorem score_and_lives_bounds rect_move entropy g g0 :
  Reachable rect_move entropy g →
  (0 ≤ score g ∧ lives g ≤ 3
   ∧ (if game_over g then lives g ≤ 0 else 1 ≤ lives g))
  ∧ score g0 ≤ score (game_logic rect_move entropy g0)
  ∧ lives (game_logic rect_move entropy g0) ≤ lives g0.
Proof.
  intros Hg. split.
  - apply (reachable_invariant rect_move entropy tally_ok); try done.
    + intros ??. apply tally_ok_handle_event.
    + intros ?. apply tally_ok_game_logic.
  - destruct (game_over g0) eqn:E.
    + by rewrite game_logic_over.
    + rewrite game_logic_running by done. cbn [score lives].
      pose proof (gained_nonneg rect_move (player_row_index g0)
                    (player_col_index g0) (pedestrians (spawn entropy g0))).
      pose proof (fallen_nonneg rect_move (player_row_index g0)
                    (player_col_index g0) (pedestrians (spawn entropy g0))).
      lia.
Qed.

Lemma score_and_lives_bounds_witness :
  Reachable pygame_rect_move busy_entropy
    (idle_run pygame_rect_move busy_entropy 416)
  ∧ lives (idle_run pygame_rect_move busy_entropy 416) ≤ 3.
Proof.
  split; [apply idle_run_reachable|].
  pose proof (score_and_lives_bounds pygame_rect_move busy_entropy
                (idle_run pygame_rect_move busy_entropy 416) street_game
                (idle_run_reachable pygame_rect_move busy_entropy 416)) as H.
  destruct H as ((_ & Hl & _) & _). exact Hl.
Defined.

Lemma timers_ok_handle_event entropy g event :
  timers_ok g → timers_ok (handle_event entropy g event).
Proof.
  unfold timers_ok. intros Hok. destruct event as [|key|]; [done| |done].
  cbn [handle_event]. unfold handle_keydown.
  destruct (game_over g); destruct key; cbn; try done.
  pose proof (random_randint_range PEDESTRIAN_SPAWN_RATE_MIN
                PEDESTRIAN_SPAWN_RATE_MAX (entropy (rng_pos g))) as Hr.
  unfold PEDESTRIAN_SPAWN_RATE_MIN, PEDESTRIAN_SPAWN_RATE_MAX in *. lia.
Qed.

Lemma timers_ok_game_logic rect_move entropy g :
  timers_ok g → timers_ok (game_logic rect_move entropy g).
Proof.
  unfold timers_ok. intros Hok. destruct (game_over g) eqn:E.
  - by rewrite game_logic_over.
  - rewrite game_logic_running by done.
    cbn [spawn_timer next_spawn_delay]. unfold spawn.
    destruct (next_spawn_delay g <=? spawn_timer g + 1) eqn:Ed;
      cbn [spawn_timer next_spawn_delay].
    + pose proof (random_randint_range PEDESTRIAN_SPAWN_RATE_MIN
                    PEDESTRIAN_SPAWN_RATE_MAX (entropy (S (rng_pos g)))) as Hr.
      unfold PEDESTRIAN_SPAWN_RATE_MIN, PEDESTRIAN_SPAWN_RATE_MAX in *. lia.
    + apply Z.leb_gt in Ed. lia.
Qed.

(** X5. Along every run, at the top of every frame, the spawn timer is at
    least 0 and below the spawn delay, and the spawn delay is between
    [PEDESTRIAN_SPAWN_RATE_MIN] and [PEDESTRIAN_SPAWN_RATE_MAX]: the timer
    never overshoots, and a running game spawns again within 400 ticks. *)
Theorem spawn_timer_below_delay rect_move entropy g :
  Reachable rect_move entropy g →
  0 ≤ spawn_timer g < next_spawn_delay g
  ∧ PEDESTRIAN_SPAWN_RATE_MIN ≤ next_spawn_delay g
    ≤ PEDESTRIAN_SPAWN_RATE_MAX.
Proof.
  apply (reachable_invariant rect_move entropy timers_ok).
  - unfold timers_ok, initial_game. cbn.
    pose proof (random_randint_range PEDESTRIAN_SPAWN_RATE_MIN
                  PEDESTRIAN_SPAWN_RATE_MAX (entropy 1%nat)) as Hr.
    unfold PEDESTRIAN_SPAWN_RATE_MIN, PEDESTRIAN_SPAWN_RATE_MAX in *. lia.
  - intros ??. apply timers_ok_handle_event.
  - intros ?. apply timers_ok_game_logic.
Qed.

Lemma spawn_timer_below_delay_witness :
  Reachable pygame_rect_move busy_entropy
    (idle_run pygame_rect_move busy_entropy 416)
  ∧ spawn_timer (idle_run pygame_rect_move busy_entropy 416)
    < next_spawn_delay (idle_run pygame_rect_move busy_entropy 416).
Proof.
  split; [apply idle_run_reachable|].
  pose proof (spawn_timer_below_delay pygame_rect_move busy_entropy
                (idle_run pygame_rect_move busy_entropy 416)
                (idle_run_reachable pygame_rect_move busy_entropy 416)) as H.
  destruct H as ((_ & Ht) & _). exact Ht.
Defined.

Lemma ped_next_shape rect_move pr pc p :
  rect_x (ped_next rect_move pr pc p) = rect_move (rect_x p)
  ∧ row (ped_next rect_move pr pc p) = row p.
Proof.
  unfold ped_next.
  destruct (outcome_cases rect_move pr pc p)
    as [(col & manhole_x & _ & _ & Ho)|[Ho|[Ho|Ho]]]; by rewrite Ho.
Qed.

Lemma unmarked_on_screen rect_move pr pc p :
  ped_marked rect_move pr pc p = false →
  rect_move (rect_x p) ≤ SCREEN_WIDTH.
Proof.
  intros Hm. destruct (decide (SCREEN_WIDTH < rect_move (rect_x p)))
    as [Hout|]; [|lia].
  unfold ped_marked in Hm. rewrite (outcome_exit _ _ _ _ Hout) in Hm.
  cbn in Hm. discriminate Hm.
Qed.

Lemma ped_on_path_survivors rect_move pr pc peds :
  Forall ped_on_path peds →
  Forall ped_on_path (survivors rect_move pr pc peds).
Proof.
  intros Hok. unfold survivors. apply Forall_fmap, Forall_forall.
  intros p Hp. apply list_elem_of_filter in Hp as [Hm Hp].
  rewrite Forall_forall in Hok. destruct (Hok _ Hp) as [Hrow _].
  destruct (ped_next_shape rect_move pr pc p) as [Hx Hr].
  unfold ped_on_path, rect_left. cbn. rewrite Hx, Hr.
  split; [done|]. by eapply unmarked_on_screen.
Qed.

Lemma ped_on_path_game_logic rect_move entropy g :
  Forall ped_on_path (pedestrians g) →
  Forall ped_on_path (pedestrians (game_logic rect_move entropy g)).
Proof.
  intros Hok. destruct (game_over g) eqn:E.
  - by rewrite game_logic_over.
  - rewrite game_logic_running by done. cbn [pedestrians].
    apply ped_on_path_survivors. unfold spawn.
    destruct (_ <=? _); cbn [pedestrians]; [|done].
    apply Forall_app. split; [done|]. apply Forall_singleton.
    split; [apply random_choice_rows_range|done].
Qed.

Lemma ped_on_path_handle_event entropy g event :
  Forall ped_on_path (pedestrians g) →
  Forall ped_on_path (pedestrians (handle_event entropy g event)).
Proof.
  intros Hok. destruct event as [|key|]; cbn [handle_event]; try done.
  unfold handle_keydown. destruct (game_over g); destruct key; cbn; done.
Qed.

(** X6. Along every run, at the top of every frame, every pedestrian of
    the list is on row 0 or row 1 and its left edge is not past the right
    boundary of the screen.  In any state whatever, a tick adds at most one
    pedestrian to the list. *)
Theorem pedestrians_stay_on_paths rect_move entropy g p g0 :
  Reachable rect_move entropy g →
  p ∈ pedestrians g →
  index_in_range (row p)
  ∧ rect_left p ≤ SCREEN_WIDTH
  ∧ (length (pedestrians (game_logic rect_move entropy g0))
     ≤ length (pedestrians g0) + 1)%nat.
Proof.
  intros Hg Hp.
  assert (Forall ped_on_path (pedestrians g)) as Hall.
  { clear Hp. revert g Hg.
    apply (reachable_invariant rect_move entropy
             (λ g, Forall ped_on_path (pedestrians g))).
    - constructor.
    - intros ??. apply ped_on_path_handle_event.
    - intros ?. apply ped_on_path_game_logic. }
  rewrite Forall_forall in Hall. destruct (Hall _ Hp) as [Hr Hx].
  split; [done|]. split; [done|].
  destruct (game_over g0) eqn:E.
  - rewrite game_logic_over by done. lia.
  - rewrite game_logic_running by done. cbn [pedestrians].
    unfold survivors. rewrite length_fmap.
    etrans; [apply length_filter|]. unfold spawn.
    destruct (_ <=? _); cbn [pedestrians]; [|lia].
    rewrite length_app. cbn. lia.
Qed.

Lemma pedestrians_stay_on_paths_witness :
  Reachable pygame_rect_move quiet_entropy
    (idle_run pygame_rect_move quiet_entropy 334)
  ∧ walker_f ∈ pedestrians (idle_run pygame_rect_move quiet_entropy 334)
  ∧ rect_left walker_f ≤ SCREEN_WIDTH.
Proof.
  assert (walker_f ∈ pedestrians (idle_run pygame_rect_move quiet_entropy 334))
    as Hin.
  { assert (pedestrians (idle_run pygame_rect_move quiet_entropy 334)
            = [walker_f]) as ->
      by (vm_compute; reflexivity).
    apply elem_of_cons. by left. }
  split; [apply idle_run_reachable|]. split; [exact Hin|].
  pose proof (pedestrians_stay_on_paths pygame_rect_move quiet_entropy
                (idle_run pygame_rect_move quiet_entropy 334) walker_f
                street_game
                (idle_run_reachable pygame_rect_move quiet_entropy 334) Hin)
    as H.
  destruct H as (_ & Hx & _). exact Hx.
Defined.

(** ** The removal pass on any list of indices *)

Section AnyIndices.

Context {A : Type}.
Implicit Types (l : list A) (indices ms : list nat).

Lemma descending_reverse_ascending ms :
  StronglySorted index_ge ms → NoDup ms → StronglySorted lt (reverse ms).
Proof.
  induction 1 as [|m ms Hs IH Hall]; intros Hnd; [constructor|].
  apply NoDup_cons in Hnd as [Hm Hnd].
  rewrite reverse_cons. apply StronglySorted_app.
  split; [|split; [by apply IH|repeat constructor]].
  intros j m' Hj Hm'. apply list_elem_of_singleton in Hm' as ->.
  rewrite elem_of_reverse in Hj.
  rewrite Forall_forall in Hall. specialize (Hall _ Hj).
  unfold index_ge in Hall.
  assert (j ≠ m) by (by intros ->). lia.
Qed.

Lemma sorted_reverse_set_spec indices :
  StronglySorted lt (reverse (sorted_reverse_set indices))
  ∧ ∀ j, j ∈ reverse (sorted_reverse_set indices) ↔ j ∈ indices.
Proof.
  unfold sorted_reverse_set. split.
  - apply descending_reverse_ascending.
    + apply StronglySorted_merge_sort; apply _.
    + rewrite merge_sort_Permutation. apply NoDup_remove_dups.
  - intros j. rewrite elem_of_reverse, merge_sort_Permutation.
    apply elem_of_remove_dups.
Qed.

Lemma lookup_position_flags indices n j :
  position_flags indices n !! j = Some true ↔ (j < n)%nat ∧ j ∈ indices.
Proof.
  unfold position_flags. rewrite list_lookup_fmap. split.
  - destruct (seq 0 n !! j) as [j'|] eqn:E; [|done].
    apply lookup_seq in E as [-> ?]. cbn. intros [= Hd].
    apply bool_decide_eq_true in Hd. done.
  - intros [Hlt Hj].
    assert (seq 0 n !! j = Some j) as -> by (by apply lookup_seq).
    cbn. by rewrite bool_decide_eq_true_2.
Qed.

Lemma ascending_unique ms1 ms2 :
  StronglySorted lt ms1 → StronglySorted lt ms2 →
  (∀ j, j ∈ ms1 ↔ j ∈ ms2) → ms1 = ms2.
Proof.
  intros Hs1 Hs2 Heq.
  assert (AntiSymm (=) lt) by (intros a b ??; lia).
  apply (StronglySorted_unique lt); [done|done|].
  apply NoDup_Permutation; [by apply ascending_NoDup..|done].
Qed.

Lemma keep_unflagged_app flags1 flags2 l :
  length flags1 = length l →
  keep_unflagged (flags1 ++ flags2) l = keep_unflagged flags1 l.
Proof.
  revert l. induction flags1 as [|f flags1 IH]; intros [|a l] Hlen;
    try done.
  - by destruct flags2.
  - cbn. injection Hlen as Hlen. rewrite IH by done. done.
Qed.

Lemma position_flags_add indices n k :
  position_flags indices (n + k)
  = position_flags indices n
    ++ ((λ j, bool_decide (j ∈ indices)) <$> seq n k).
Proof. unfold position_flags. by rewrite seq_app, fmap_app. Qed.

(** X7. The removal pass deletes exactly the entries whose position occurs
    in the list of indices, whatever that list is: in any order, with
    repetitions, with indices past the end of the list. *)
Theorem removal_by_position indices l :
  remove_pedestrians indices l
  = keep_unflagged (position_flags indices (length l)) l.
Proof.
  destruct (sorted_reverse_set_spec indices) as [Hsorted Helem].
  unfold remove_pedestrians.
  rewrite <- (reverse_involutive (sorted_reverse_set indices)).
  rewrite foldl_reverse_foldr.
  set (ms := reverse (sorted_reverse_set indices)) in *.
  set (k := S (max_list indices)).
  assert (flagged_indices 0 (position_flags indices (length l + k)) = ms)
    as Hflags.
  { apply ascending_unique; [apply flagged_indices_sorted|done|].
    intros j. rewrite elem_of_flagged_indices, Nat.sub_0_r.
    rewrite lookup_position_flags, Helem. split; [by intros (_ & _ & ?)|].
    intros Hj. split; [lia|]. split; [|done].
    pose proof (max_list_elem_of_le _ _ Hj). lia. }
  rewrite <- Hflags.
  rewrite <- (keep_unflagged_app _
                ((λ j, bool_decide (j ∈ indices)) <$> seq (length l) k));
    [|unfold position_flags; by rewrite length_fmap, length_seq].
  rewrite <- position_flags_add.
  rewrite <- (foldr_del_flagged 0).
  apply foldr_ext; [|done|done].
  intros m acc. by rewrite Nat.sub_0_r.
Qed.

End AnyIndices.

(** ** The order of the columns *)

(** X8. The collision zones of the two columns do not overlap, so the
    order in which the loop visits the columns has no influence: on any
    rearrangement of [enumerate(MANHOLE_CENTERS_X)] the loop over the
    columns ends with the same credited set, the same counters and the same
    [fell_in_hole], and a centre is inside the zone of at most one column. *)
Theorem column_order_irrelevant pr pc i ped_row x scored c cols :
  cols ≡ₚ enumerate MANHOLE_CENTERS_X →
  check_manholes pr pc i ped_row x cols scored c
  = check_manholes pr pc i ped_row x (enumerate MANHOLE_CENTERS_X) scored c
  ∧ (∀ slot1 slot2,
       slot1 ∈ cols → slot2 ∈ cols →
       in_zone slot1.2 x = true → in_zone slot2.2 x = true →
       slot1 = slot2).
Proof.
  intros Hperm. split.
  - rewrite enumerate_MANHOLE_CENTERS_X in *. symmetry in Hperm.
    apply Permutation_length_2_inv in Hperm as [-> | ->]; [done|].
    cbn [check_manholes].
    destruct (in_zone 240 x) eqn:E0; destruct (in_zone 560 x) eqn:E1;
      try done.
    apply in_zone_spec in E0, E1. lia.
  - intros [col1 x1] [col2 x2] H1 H2 Hz1 Hz2. cbn in Hz1, Hz2.
    rewrite Hperm in H1, H2.
    pose proof (zone_slot_unique _ _ _ H1 Hz1) as Hs1.
    pose proof (zone_slot_unique _ _ _ H2 Hz2) as Hs2.
    congruence.
Qed.

Lemma column_order_irrelevant_witness :
  reverse (enumerate MANHOLE_CENTERS_X) ≡ₚ enumerate MANHOLE_CENTERS_X
  ∧ check_manholes 0 0 3 0 536 (reverse (enumerate MANHOLE_CENTERS_X))
      {[(0, 0)]} {| c_score := 1; c_lives := 3; c_remove := [] |}
    = check_manholes 0 0 3 0 536 (enumerate MANHOLE_CENTERS_X)
        {[(0, 0)]} {| c_score := 1; c_lives := 3; c_remove := [] |}.
Proof.
  assert (reverse (enumerate MANHOLE_CENTERS_X)
          ≡ₚ enumerate MANHOLE_CENTERS_X) as Hperm
    by apply reverse_Permutation.
  split; [exact Hperm|].
  exact (proj1 (column_order_irrelevant 0 0 3 0 536 {[(0, 0)]}
                  {| c_score := 1; c_lives := 3; c_remove := [] |}
                  (reverse (enumerate MANHOLE_CENTERS_X)) Hperm)).
Defined.

(** ** The player's rectangle *)

Lemma py_index_is_Some {A} (l : list A) i :
  is_Some (py_index l i)
  ↔ - Z.of_nat (length l) ≤ i < Z.of_nat (length l).
Proof.
  unfold py_index. destruct (0 <=? i) eqn:E0.
  - apply Z.leb_le in E0. rewrite lookup_lt_is_Some. lia.
  - apply Z.leb_gt in E0.
    destruct (- Z.of_nat (length l) <=? i) eqn:E1.
    + apply Z.leb_le in E1. rewrite lookup_lt_is_Some. lia.
    + apply Z.leb_gt in E1. split; [by intros [? [=]]|lia].
Qed.

Lemma get_player_manhole_pos_lattice g :
  index_in_range (player_row_index g) →
  index_in_range (player_col_index g) →
  get_player_manhole_pos g
  = slot_center (player_row_index g) (player_col_index g)
  ∧ is_Some (get_player_manhole_pos g).
Proof.
  unfold get_player_manhole_pos, slot_center.
  intros [-> | ->] [-> | ->]; cbn; eauto.
Qed.

(** X9. [get_player_manhole_pos] raises [IndexError] exactly when the
    column index or the row index is outside [-2, 2); inside, a negative
    index counts from the end, so that the position is that of the slot
    with the indices taken modulo 2. *)
Theorem player_manhole_pos_defined g :
  (is_Some (get_player_manhole_pos g)
   ↔ (-2 ≤ player_col_index g < 2) ∧ (-2 ≤ player_row_index g < 2))
  ∧ (is_Some (get_player_manhole_pos g) →
     get_player_manhole_pos g
     = slot_center (player_row_index g mod 2) (player_col_index g mod 2)).
Proof.
  assert (is_Some (get_player_manhole_pos g)
          ↔ (-2 ≤ player_col_index g < 2) ∧ (-2 ≤ player_row_index g < 2))
    as Hdef.
  { unfold get_player_manhole_pos.
    pose proof (py_index_is_Some MANHOLE_CENTERS_X (player_col_index g))
      as Hc.
    pose proof (py_index_is_Some PATH_CENTERS_Y (player_row_index g)) as Hr.
    cbn [length MANHOLE_CENTERS_X PATH_CENTERS_Y] in Hc, Hr.
    destruct (py_index MANHOLE_CENTERS_X _) as [tx|].
    - destruct (py_index PATH_CENTERS_Y _) as [ty|].
      + split; [|by eauto]. intros _.
        split; [apply Hc|apply Hr]; by eauto.
      + split; [by intros [? [=]]|]. intros [_ Hrow].
        apply Hr in Hrow. by destruct Hrow.
    - split; [by intros [? [=]]|]. intros [Hcol _].
      apply Hc in Hcol. by destruct Hcol. }
  split; [exact Hdef|]. intros Hsome. apply Hdef in Hsome as [Hc Hr].
  unfold get_player_manhole_pos, slot_center.
  assert (player_col_index g = -2 ∨ player_col_index g = -1
          ∨ player_col_index g = 0 ∨ player_col_index g = 1)
    as [-> | [-> | [-> | ->]]] by lia;
  assert (player_row_index g = -2 ∨ player_row_index g = -1
          ∨ player_row_index g = 0 ∨ player_row_index g = 1)
    as [-> | [-> | [-> | ->]]] by lia; reflexivity.
Qed.

Lemma player_manhole_pos_defined_witness :
  is_Some
    (get_player_manhole_pos
       (set_player_col_index (initial_game quiet_entropy) (-1)))
  ∧ get_player_manhole_pos
      (set_player_col_index (initial_game quiet_entropy) (-1))
    = slot_center 0 1.
Proof.
  assert (is_Some
            (get_player_manhole_pos
               (set_player_col_index (initial_game quiet_entropy) (-1))))
    as Hsome by (by eexists).
  split; [exact Hsome|].
  exact (proj2 (player_manhole_pos_defined
                  (set_player_col_index (initial_game quiet_entropy) (-1)))
           Hsome).
Defined.

Section DisplayRun.

Variable rect_center : Z * Z → Z * Z.
Variable entropy : nat → nat.
Variable rect_move : Z → Z.

Lemma display_ok_intro g center :
  index_in_range (player_row_index g) →
  index_in_range (player_col_index g) →
  rect_center <$> get_player_manhole_pos g = Some center →
  display_ok rect_center {| game := g; player_rect_center := center |}.
Proof. by intros ???. Qed.

Lemma reset_display_ok d :
  ∃ d', reset_display rect_center entropy d = Some d'
        ∧ game d' = reset_game entropy (game d)
        ∧ display_ok rect_center d'.
Proof.
  unfold reset_display.
  destruct (get_player_manhole_pos_lattice (reset_game entropy (game d)))
    as [_ [pos Hpos]]; [by left..|].
  rewrite Hpos. eexists. split; [done|]. split; [done|].
  apply display_ok_intro; [by left..|]. cbn [game]. by rewrite Hpos.
Qed.

Lemma keydown_display_ok key d :
  display_ok rect_center d →
  ∃ d', keydown_display rect_center entropy key d = Some d'
        ∧ game d' = handle_keydown entropy key (game d)
        ∧ display_ok rect_center d'.
Proof.
  intros (Hr & Hc & Hpos).
  pose proof (handle_event_indices entropy (KEYDOWN key) (game d) Hr Hc)
    as [Hr' Hc']. cbn [handle_event] in Hr', Hc'.
  unfold keydown_display. unfold handle_keydown in *.
  destruct (game_over (game d)) eqn:E; cbn [negb] in *.
  - destruct key;
      try (exists d; split; [done|]; split; [done|]; by repeat split).
    apply reset_display_ok.
  - destruct key;
      try (destruct (get_player_manhole_pos_lattice _ Hr' Hc')
             as [_ [pos Hp]];
           rewrite Hp; eexists; split; [done|]; split; [done|];
           apply display_ok_intro; [done..|]; cbn [game]; by rewrite Hp).
    + eexists. split; [done|]. split; [done|]. by destruct d.
    + eexists. split; [done|]. split; [done|]. by destruct d.
Qed.

Lemma event_display_ok event d :
  display_ok rect_center d →
  ∃ d', event_display rect_center entropy d event = Some d'
        ∧ game d' = handle_event entropy (game d) event
        ∧ display_ok rect_center d'.
Proof.
  intros Hok. destruct event as [|key|]; cbn [event_display handle_event].
  - eexists. split; [done|]. split; [done|].
    destruct Hok as (Hr & Hc & Hpos). by repeat split.
  - by apply keydown_display_ok.
  - by exists d.
Qed.

Lemma events_display_ok events d :
  display_ok rect_center d →
  ∃ d', events_display rect_center entropy events d = Some d'
        ∧ game d' = handle_events entropy events (game d)
        ∧ display_ok rect_center d'.
Proof.
  revert d. induction events as [|e events IH]; intros d Hok.
  - by exists d.
  - cbn [events_display]. unfold handle_events. cbn [foldl].
    destruct (event_display_ok e d Hok) as (d1 & -> & Hg & Hok1).
    destruct (IH d1 Hok1) as (d' & Hd' & Hg' & Hok').
    exists d'. split; [done|]. split; [|done].
    rewrite Hg'. unfold handle_events. by rewrite Hg.
Qed.

Lemma frame_display_ok events d :
  display_ok rect_center d →
  ∃ d', frame_display rect_center entropy rect_move events d = Some d'
        ∧ game d' = frame rect_move entropy events (game d)
        ∧ display_ok rect_center d'.
Proof.
  intros Hok. unfold frame_display, frame.
  destruct (events_display_ok events d Hok)
    as (d1 & -> & Hg & Hr & Hc & Hpos).
  eexists. split; [done|]. cbn [game]. rewrite <- Hg. split; [done|].
  destruct (game_logic_indices rect_move entropy (game d1)) as [Hr' Hc'].
  unfold display_ok. cbn [game player_rect_center].
  rewrite Hr', Hc'. split; [done|]. split; [done|].
  rewrite <- Hpos. unfold get_player_manhole_pos. by rewrite Hr', Hc'.
Qed.

Lemma loop_display_ok batches d :
  display_ok rect_center d →
  ∃ d', loop_display rect_center entropy rect_move batches d = Some d'
        ∧ game d' = main_loop rect_move entropy batches (game d)
        ∧ display_ok rect_center d'.
Proof.
  revert d. induction batches as [|events batches IH]; intros d Hok.
  - by exists d.
  - cbn [loop_display main_loop]. destruct (running (game d)).
    + destruct (frame_display_ok events d Hok) as (d1 & -> & Hg & Hok1).
      destruct (IH d1 Hok1) as (d' & Hd' & Hg' & Hok').
      exists d'. by rewrite <- Hg.
    + by exists d.
Qed.

End DisplayRun.

(** X10. The program never raises [IndexError] in
    [get_player_manhole_pos]: from the start of the program, through any
    batches of events, the loop goes on; the global variables it reaches
    are those of the loop without the rectangle; the player stays on the
    lattice and [player_rect] is centred, up to pygame's conversion, on the
    manhole the player covers. *)
Theorem player_rect_follows_player rect_center entropy rect_move batches :
  ∃ d0 d,
    initial_display rect_center entropy = Some d0
    ∧ loop_display rect_center entropy rect_move batches d0 = Some d
    ∧ game d = main_loop rect_move entropy batches (initial_game entropy)
    ∧ rect_center
        <$> slot_center (player_row_index (game d))
              (player_col_index (game d))
      = Some (player_rect_center d).
Proof.
  destruct (reset_display_ok rect_center entropy
              {| game := module_globals entropy;
                 player_rect_center :=
                   (PLAYER_WIDTH / 2, PLAYER_HEIGHT / 2) |})
    as (d0 & Hd0 & Hg0 & Hok0).
  destruct (loop_display_ok rect_center entropy rect_move batches d0 Hok0)
    as (d & Hd & Hg & Hr & Hc & Hpos).
  exists d0, d. split; [done|]. split; [done|].
  split; [by rewrite Hg, Hg0|].
  by destruct (get_player_manhole_pos_lattice (game d) Hr Hc) as [<- _].
Qed.

(** ** The drawing *)

Lemma flat_map_none {A B} (f : A → list B) (l : list A) :
  Forall (λ a, f a = []) l → flat_map f l = [].
Proof. induction 1 as [|a l Ha _ IH]; [done|]. cbn. by rewrite Ha, IH. Qed.

Lemma pedestrian_calls (peds : list Pedestrian) :
  Forall (λ call, ∃ color ped width,
            call = draw_pedestrian_rect color ped width)
    (flat_map
       (λ ped_data,
          [draw_pedestrian_rect PEDESTRIAN_COLOR ped_data None;
           draw_pedestrian_rect PEDESTRIAN_BORDER_COLOR ped_data (Some 1)])
       peds).
Proof.
  induction peds as [|p peds IH]; [constructor|]. cbn.
  repeat (constructor; [by eauto|]). done.
Qed.

Lemma manhole_calls d :
  Forall (λ call,
            (∃ color center width,
               call = draw_player_rect color center width)
            ∨ (∃ color center radius width,
                 call = draw_circle color center radius width))
    (draw_manholes d).
Proof.
  apply Forall_forall. intros call H. unfold draw_manholes in H.
  apply list_elem_of_In, in_flat_map in H as ([r y] & _ & H).
  apply in_flat_map in H as ([c x] & _ & H).
  unfold draw_manhole in H.
  destruct (_ && negb _); [|destruct (negb _)]; cbn in H;
    intuition (subst; eauto 10).
Qed.

(** The calls of a frame that are not about the manholes draw no circle
    and do not draw the player's rectangle. *)
Lemma draw_frame_manholes {B} (f : DrawCall → list B) d :
  (∀ color, f (screen_fill color) = []) →
  (∀ color a b width, f (draw_line color a b width) = []) →
  (∀ color ped width, f (draw_pedestrian_rect color ped width) = []) →
  (∀ text font color x y center,
     f (draw_text text font color x y center) = []) →
  (∀ color alpha, f (blit_overlay color alpha) = []) →
  flat_map f (draw_frame d) = flat_map f (draw_manholes d).
Proof.
  intros Hfill Hline Hped Htext Hblit. unfold draw_frame.
  rewrite !flat_map_app.
  rewrite (flat_map_none f (flat_map _ (pedestrians (game d)))).
  2:{ eapply Forall_impl; [apply pedestrian_calls|].
      intros call (color & ped & width & ->). apply Hped. }
  destruct (game_over (game d));
    cbn [flat_map fmap list_fmap PATH_CENTERS_Y];
    rewrite ?Hfill, ?Hline, ?Htext, ?Hblit; cbn [app];
    by rewrite ?app_nil_r.
Qed.

Lemma flat_map_all {A} (f : A → list A) (l : list A) :
  Forall (λ a, f a = [a]) l → flat_map f l = l.
Proof. induction 1 as [|a l Ha _ IH]; [done|]. cbn. by rewrite Ha, IH. Qed.

(** X11. The manholes of a frame, with the player on the lattice.  The
    calls that draw a circle or the player's rectangle are those of the
    loop over the manholes and no others.  While the game runs they are,
    manhole by manhole: for the manhole the player covers, the player's
    rectangle filled and then its border of width 2, both at
    [player_rect]; for each of the three others, the outline of width 2
    and the filled circle of radius 23.  When the game is over they are
    the four outlines and nothing else: no filled circle and no call on
    the player's rectangle, filled or border. *)
Theorem manholes_drawn d :
  index_in_range (player_row_index (game d)) →
  index_in_range (player_col_index (game d)) →
  let calls := draw_frame d in
  let covered :=
    slot_center (player_row_index (game d)) (player_col_index (game d)) in
  let outline pos :=
    draw_circle MANHOLE_VISUAL_COLOR pos MANHOLE_VISUAL_RADIUS (Some 2) in
  let open pos :=
    draw_circle MANHOLE_OPEN_COLOR pos (MANHOLE_VISUAL_RADIUS - 2) None in
  manhole_calls_drawn calls = draw_manholes d
  ∧ (if game_over (game d) then
       manhole_calls_drawn calls = outline <$> slot_centers
       ∧ covers_drawn calls = []
       ∧ open_manholes calls = []
       ∧ manhole_outlines calls = slot_centers
     else
       manhole_calls_drawn calls
       = flat_map
           (λ pos,
              if bool_decide (covered = Some pos) then
                [draw_player_rect PLAYER_COLOR (player_rect_center d) None;
                 draw_player_rect PLAYER_BORDER_COLOR (player_rect_center d)
                   (Some 2)]
              else [outline pos; open pos])
           slot_centers
       ∧ covers_drawn calls = [player_rect_center d]
       ∧ open_manholes calls
         = filter (λ pos, covered ≠ Some pos) slot_centers
       ∧ manhole_outlines calls = open_manholes calls
       ∧ length (open_manholes calls) = 3%nat).
Proof.
  intros Hr Hc calls covered outline open.
  subst calls covered outline open.
  unfold manhole_calls_drawn, covers_drawn, open_manholes, manhole_outlines.
  rewrite !draw_frame_manholes by done.
  split.
  - apply flat_map_all. eapply Forall_impl; [apply manhole_calls|].
    by intros call [(? & ? & ? & ->)|(? & ? & ? & ? & ->)].
  - destruct d as [g center]. cbn [game player_rect_center] in *.
    unfold draw_manholes, draw_manhole. cbn [game player_rect_center].
    destruct (game_over g);
      destruct Hr as [-> | ->], Hc as [-> | ->]; by vm_compute.
Qed.

Lemma manholes_drawn_witness :
  index_in_range (player_row_index lost_game)
  ∧ index_in_range (player_col_index lost_game)
  ∧ manhole_calls_drawn
      (draw_frame {| game := lost_game; player_rect_center := (240, 338) |})
    = [draw_circle MANHOLE_VISUAL_COLOR (240, 360) 25 (Some 2);
       draw_circle MANHOLE_VISUAL_COLOR (560, 360) 25 (Some 2);
       draw_circle MANHOLE_VISUAL_COLOR (240, 675) 25 (Some 2);
       draw_circle MANHOLE_VISUAL_COLOR (560, 675) 25 (Some 2)].
Proof.
  split; [by right|]. split; [by left|].
  pose proof (manholes_drawn
                {| game := lost_game; player_rect_center := (240, 338) |}
                (or_intror eq_refl) (or_introl eq_refl)) as H.
  cbn zeta in H. change (game_over (game _)) with true in H.
  destruct H as (_ & Ho & _). rewrite Ho. reflexivity.
Defined.

Lemma pedestrians_drawn_calls (peds : list Pedestrian) :
  pedestrians_drawn
    (flat_map
       (λ ped_data,
          [draw_pedestrian_rect PEDESTRIAN_COLOR ped_data None;
           draw_pedestrian_rect PEDESTRIAN_BORDER_COLOR ped_data (Some 1)])
       peds)
  = peds.
Proof.
  unfold pedestrians_drawn.
  induction peds as [|p peds IH]; [done|]. cbn. by f_equal.
Qed.

Lemma draw_frame_split d :
  draw_frame d
  = [screen_fill BACKGROUND_COLOR;
     draw_line PATH_COLOR (0, 360) (SCREEN_WIDTH, 360) PATH_VISUAL_HEIGHT;
     draw_line PATH_COLOR (0, 675) (SCREEN_WIDTH, 675) PATH_VISUAL_HEIGHT]
    ++ draw_manholes d
    ++ flat_map
         (λ ped_data,
            [draw_pedestrian_rect PEDESTRIAN_COLOR ped_data None;
             draw_pedestrian_rect PEDESTRIAN_BORDER_COLOR ped_data (Some 1)])
         (pedestrians (game d))
    ++ ([draw_text (score_text (score (game d))) info_font TEXT_COLOR
           10 10 false;
         draw_text (lives_text (lives (game d))) info_font TEXT_COLOR
           (SCREEN_WIDTH - 110) 10 false]
        ++ (if game_over (game d) then
              [blit_overlay (0, 0, 0) 150;
               draw_text game_over_text game_over_font GAME_OVER_TEXT_COLOR
                 (SCREEN_WIDTH / 2) (SCREEN_HEIGHT / 2 - 40) true;
               draw_text (final_score_text (score (game d))) info_font
                 TEXT_COLOR (SCREEN_WIDTH / 2) (SCREEN_HEIGHT / 2 + 20) true;
               draw_text restart_text restart_font RESTART_TEXT_COLOR
                 (SCREEN_WIDTH / 2) (SCREEN_HEIGHT / 2 + 70) true]
            else [])).
Proof. reflexivity. Qed.

(** X12. A frame shows the state as it is, in layers.  First the backdrop:
    the background and the two path lines.  Then the manholes.  Then every
    pedestrian of the list, in the order of the list, each filled and then
    outlined with width 1.  Then the captions: the score and the lives
    with their current values and, exactly when the game is over, the
    overlay followed by "GAME OVER", the final score (the current score)
    and the restart hint.  No other call is made. *)
Theorem frame_shows_state d :
  let calls := draw_frame d in
  calls
  = backdrop_calls calls ++ manhole_calls_drawn calls
    ++ pedestrian_calls_drawn calls ++ caption_calls calls
  ∧ backdrop_calls calls
    = [screen_fill BACKGROUND_COLOR;
       draw_line PATH_COLOR (0, 360) (800, 360) 5;
       draw_line PATH_COLOR (0, 675) (800, 675) 5]
  ∧ pedestrian_calls_drawn calls
    = flat_map
        (λ ped,
           [draw_pedestrian_rect PEDESTRIAN_COLOR ped None;
            draw_pedestrian_rect PEDESTRIAN_BORDER_COLOR ped (Some 1)])
        (pedestrians (game d))
  ∧ caption_calls calls
    = [draw_text (score_text (score (game d))) info_font TEXT_COLOR
         10 10 false;
       draw_text (lives_text (lives (game d))) info_font TEXT_COLOR
         690 10 false]
      ++ (if game_over (game d) then
            [blit_overlay (0, 0, 0) 150;
             draw_text game_over_text game_over_font GAME_OVER_TEXT_COLOR
               400 185 true;
             draw_text (final_score_text (score (game d))) info_font
               TEXT_COLOR 400 245 true;
             draw_text restart_text restart_font RESTART_TEXT_COLOR
               400 295 true]
          else [])
  ∧ pedestrians_drawn calls = pedestrians (game d)
  ∧ texts_drawn calls
    = [score_text (score (game d)); lives_text (lives (game d))]
      ++ (if game_over (game d)
          then [game_over_text; final_score_text (score (game d));
                restart_text]
          else [])
  ∧ (blit_overlay (0, 0, 0) 150 ∈ calls ↔ game_over (game d) = true).
Proof.
  intros calls. subst calls.
  assert (∀ (B : Type) (f : DrawCall → list B),
            (∀ color center width,
               f (draw_player_rect color center width) = []) →
            (∀ color center radius width,
               f (draw_circle color center radius width) = []) →
            flat_map f (draw_manholes d) = []) as Hman.
  { intros B f Hrect Hcircle. apply flat_map_none.
    eapply Forall_impl; [apply manhole_calls|].
    intros call [(? & ? & ? & ->)|(? & ? & ? & ? & ->)]; done. }
  assert (∀ (B : Type) (f : DrawCall → list B),
            (∀ color ped width,
               f (draw_pedestrian_rect color ped width) = []) →
            flat_map f
              (flat_map
                 (λ ped_data,
                    [draw_pedestrian_rect PEDESTRIAN_COLOR ped_data None;
                     draw_pedestrian_rect PEDESTRIAN_BORDER_COLOR ped_data
                       (Some 1)])
                 (pedestrians (game d))) = []) as Hped.
  { intros B f Hf. apply flat_map_none.
    eapply Forall_impl; [apply pedestrian_calls|].
    by intros call (? & ? & ? & ->). }
  assert (backdrop_calls (draw_frame d)
          = [screen_fill BACKGROUND_COLOR;
             draw_line PATH_COLOR (0, 360) (800, 360) 5;
             draw_line PATH_COLOR (0, 675) (800, 675) 5]) as Hback.
  { unfold backdrop_calls. rewrite draw_frame_split, !flat_map_app.
    rewrite Hman, Hped by done. by destruct (game_over (game d)). }
  assert (manhole_calls_drawn (draw_frame d) = draw_manholes d) as Hholes.
  { unfold manhole_calls_drawn. rewrite draw_frame_manholes by done.
    apply flat_map_all. eapply Forall_impl; [apply manhole_calls|].
    by intros call [(? & ? & ? & ->)|(? & ? & ? & ? & ->)]. }
  assert (pedestrian_calls_drawn (draw_frame d)
          = flat_map
              (λ ped,
                 [draw_pedestrian_rect PEDESTRIAN_COLOR ped None;
                  draw_pedestrian_rect PEDESTRIAN_BORDER_COLOR ped (Some 1)])
              (pedestrians (game d))) as Hpeds.
  { unfold pedestrian_calls_drawn. rewrite draw_frame_split, !flat_map_app.
    rewrite Hman by done.
    rewrite (flat_map_all _ (flat_map _ (pedestrians (game d)))).
    2:{ eapply Forall_impl; [apply pedestrian_calls|].
        by intros call (? & ? & ? & ->). }
    destruct (game_over (game d)); cbn; by rewrite app_nil_r. }
  assert (caption_calls (draw_frame d)
          = [draw_text (score_text (score (game d))) info_font TEXT_COLOR
               10 10 false;
             draw_text (lives_text (lives (game d))) info_font TEXT_COLOR
               690 10 false]
            ++ (if game_over (game d) then
                  [blit_overlay (0, 0, 0) 150;
                   draw_text game_over_text game_over_font
                     GAME_OVER_TEXT_COLOR 400 185 true;
                   draw_text (final_score_text (score (game d))) info_font
                     TEXT_COLOR 400 245 true;
                   draw_text restart_text restart_font RESTART_TEXT_COLOR
                     400 295 true]
                else [])) as Hcap.
  { unfold caption_calls. rewrite draw_frame_split, !flat_map_app.
    rewrite Hman, Hped by done. by destruct (game_over (game d)). }
  split; [|split; [done|split; [done|split; [done|split; [|split]]]]].
  - rewrite Hback, Hholes, Hpeds, Hcap. rewrite draw_frame_split.
    by destruct (game_over (game d)).
  - rewrite draw_frame_split. unfold pedestrians_drawn.
    rewrite !flat_map_app. rewrite Hman by done.
    fold (pedestrians_drawn
            (flat_map
               (λ ped_data,
                  [draw_pedestrian_rect PEDESTRIAN_COLOR ped_data None;
                   draw_pedestrian_rect PEDESTRIAN_BORDER_COLOR ped_data
                     (Some 1)])
               (pedestrians (game d)))).
    rewrite pedestrians_drawn_calls.
    destruct (game_over (game d)); cbn; by rewrite app_nil_r.
  - unfold texts_drawn. rewrite draw_frame_split, !flat_map_app.
    rewrite Hman, Hped by done. by destruct (game_over (game d)).
  - rewrite draw_frame_split, !elem_of_app. split.
    + intros [H|[H|[H|[H|H]]]].
      * repeat (apply elem_of_cons in H as [H|H]; [done|]).
        by apply elem_of_nil in H.
      * exfalso. pose proof (manhole_calls d) as Hm.
        rewrite Forall_forall in Hm.
        destruct (Hm _ H) as [(? & ? & ? & ?)|(? & ? & ? & ? & ?)]; done.
      * exfalso. pose proof (pedestrian_calls (pedestrians (game d))) as Hp.
        rewrite Forall_forall in Hp.
        destruct (Hp _ H) as (? & ? & ? & ?). done.
      * repeat (apply elem_of_cons in H as [H|H]; [done|]).
        by apply elem_of_nil in H.
      * destruct (game_over (game d)); [done|]. by apply elem_of_nil in H.
    + intros ->. do 4 right. apply elem_of_cons. by left.
Qed.

Lemma frame_shows_state_witness :
  game_over (game {| game := lost_game; player_rect_center := (240, 338) |})
  = true
  ∧ pedestrian_calls_drawn
      (draw_frame {| game := lost_game; player_rect_center := (240, 338) |})
    = [draw_pedestrian_rect PEDESTRIAN_COLOR
         {| rect_x := 300; row := 0; scored_at_indices := {[(0, 0)]} |}
         None;
       draw_pedestrian_rect PEDESTRIAN_BORDER_COLOR
         {| rect_x := 300; row := 0; scored_at_indices := {[(0, 0)]} |}
         (Some 1)]
  ∧ texts_drawn
      (draw_frame {| game := lost_game; player_rect_center := (240, 338) |})
    = [score_text 7; lives_text 0; game_over_text; final_score_text 7;
       restart_text].
Proof.
  split; [reflexivity|].
  pose proof (frame_shows_state
                {| game := lost_game; player_rect_center := (240, 338) |})
    as H.
  cbn zeta in H. destruct H as (_ & _ & Hp & _ & _ & Ht & _).
  split; [rewrite Hp; reflexivity|]. rewrite Ht. reflexivity.
Defined.

(** ** The worth of a pedestrian *)

(** X13. Over its whole walk, wherever the player is at each tick, a
    pedestrian whose credited set holds only slots of its row brings at
    most 7 points less the credits it already has (one point for each of the
    two manholes of its row and the bonus of 5), never a negative amount,
    and costs at most one life; a pedestrian that costs a life brings at
    most the 2 points of the manholes. *)
Theorem pedestrian_worth rect_move players p :
  credited_ok p →
  0 ≤ walk_points rect_move players p
    ≤ 7 - Z.of_nat (size (scored_at_indices p))
  ∧ 0 ≤ walk_falls rect_move players p ≤ 1
  ∧ (walk_falls rect_move players p = 1 →
     walk_points rect_move players p
     ≤ 2 - Z.of_nat (size (scored_at_indices p))).
Proof.
  revert p. induction players as [|[pr pc] players IH]; intros p Hok.
  - pose proof (credited_ok_size p Hok). cbn. lia.
  - pose proof (credited_ok_size p Hok) as Hsize.
    cbn [walk_points walk_falls].
    unfold score_gain, ped_marked, ped_fell.
    pose proof (credited_ok_next rect_move pr pc p Hok) as Hnext.
    specialize (IH _ Hnext). unfold ped_next in IH, Hnext.
    fold (ped_next rect_move pr pc p).
    unfold ped_next.
    destruct (outcome_cases rect_move pr pc p)
      as [(col & manhole_x & _ & Hfresh & Ho)|[Ho|[Ho|Ho]]];
      rewrite Ho in *; cbn [fst snd c_score c_remove] in *.
    + rewrite bool_decide_eq_false_2 by (by intros []).
      assert (size (scored_at_indices (credited rect_move col p))
              = S (size (scored_at_indices p))) as Hs.
      { unfold credited. cbn [scored_at_indices].
        rewrite size_union, size_singleton; [done|].
        by apply disjoint_singleton_l. }
      rewrite Hs in IH. lia.
    + rewrite bool_decide_eq_false_2 by (by intros []).
      change (scored_at_indices (walked rect_move p))
        with (scored_at_indices p) in IH. lia.
    + rewrite bool_decide_eq_true_2 by done. lia.
    + rewrite bool_decide_eq_true_2 by done. lia.
Qed.

Lemma pedestrian_worth_witness :
  credited_ok walker_a
  ∧ walk_points pygame_rect_move [(0, 0); (0, 0); (1, 0)] walker_a ≤ 7.
Proof.
  assert (credited_ok walker_a) as Hok by apply empty_subseteq.
  split; [exact Hok|].
  pose proof (pedestrian_worth pygame_rect_move [(0, 0); (0, 0); (1, 0)]
                walker_a Hok) as H.
  destruct H as ((_ & Hle) & _). exact Hle.
Defined.

(** ** The first frames of a game *)

Lemma fresh_game_handle_event entropy n g event :
  fresh_game n g → fresh_game n (handle_event entropy g event).
Proof.
  unfold fresh_game. intros (Hs & Hl & Hp & Hrun & Ht & Hd).
  destruct event as [|key|]; [done| |done]. cbn [handle_event].
  unfold handle_keydown. rewrite Hrun. by destruct key.
Qed.

Lemma fresh_game_handle_events entropy n events g :
  fresh_game n g → fresh_game n (handle_events entropy events g).
Proof.
  unfold handle_events. revert g.
  induction events as [|e events IH]; intros g Hg; [done|].
  cbn [foldl]. by apply IH, fresh_game_handle_event.
Qed.

Lemma fresh_game_game_logic rect_move entropy n g :
  0 ≤ n → fresh_game (n + 1) g →
  fresh_game n (game_logic rect_move entropy g)
  ∧ spawn_timer (game_logic rect_move entropy g) = spawn_timer g + 1.
Proof.
  unfold fresh_game. intros Hn (Hs & Hl & Hp & Hrun & Ht & Hd).
  rewrite game_logic_running by done. unfold spawn.
  assert ((next_spawn_delay g <=? spawn_timer g + 1) = false) as ->
    by (apply Z.leb_gt; lia).
  cbn [score lives pedestrians game_over spawn_timer next_spawn_delay].
  rewrite Hp, Hs, Hl. cbn. repeat split; try done; lia.
Qed.

(** X14. A restart takes effect within its frame: when the game is over,
    a frame whose batch starts with the restart key ends, whatever events
    follow the key, with score 0, three lives, no pedestrian, the game
    running and the spawn timer at 1 (the tick of the frame has run); the
    events after the key are handled by the restarted game. *)
Theorem restart_within_the_frame rect_move entropy g events :
  game_over g = true →
  let g' := frame rect_move entropy (KEYDOWN K_r :: events) g in
  g' = frame rect_move entropy events (reset_game entropy g)
  ∧ score g' = 0 ∧ lives g' = 3 ∧ pedestrians g' = []
  ∧ game_over g' = false ∧ spawn_timer g' = 1.
Proof.
  intros Hover g'. subst g'.
  assert (frame rect_move entropy (KEYDOWN K_r :: events) g
          = frame rect_move entropy events (reset_game entropy g)) as ->.
  { unfold frame, handle_events. cbn [foldl handle_event].
    unfold handle_keydown at 1. by rewrite Hover. }
  split; [done|]. unfold frame.
  assert (fresh_game (0 + 1) (reset_game entropy g)) as Hfresh.
  { unfold fresh_game. cbn.
    pose proof (random_randint_range PEDESTRIAN_SPAWN_RATE_MIN
                  PEDESTRIAN_SPAWN_RATE_MAX (entropy (rng_pos g))) as Hr.
    unfold PEDESTRIAN_SPAWN_RATE_MIN, PEDESTRIAN_SPAWN_RATE_MAX in *.
    repeat split; try done; lia. }
  assert (spawn_timer (handle_events entropy events (reset_game entropy g))
          = 0) as Htimer.
  { clear Hfresh. unfold handle_events.
    assert (∀ g0, game_over g0 = false → spawn_timer g0 = 0 →
                  spawn_timer (foldl (handle_event entropy) g0 events) = 0)
      as Hkeep.
    { induction events as [|e events IH]; intros g0 Hrun Ht; [done|].
      cbn [foldl]. apply IH.
      - by rewrite handle_event_game_over, Hrun.
      - destruct e as [|key|]; [done| |done]. cbn [handle_event].
        unfold handle_keydown. rewrite Hrun. by destruct key. }
    by apply Hkeep. }
  apply (fresh_game_handle_events entropy _ events) in Hfresh.
  destruct (fresh_game_game_logic rect_move entropy 0 _ (Z.le_refl 0) Hfresh)
    as [(Hs & Hl & Hp & Hrun & _) Ht].
  rewrite Htimer in Ht. by rewrite Ht.
Qed.

Lemma restart_within_the_frame_witness :
  game_over lost_game = true
  ∧ spawn_timer
      (frame pygame_rect_move quiet_entropy
         [KEYDOWN K_r; KEYDOWN K_s; KEYDOWN K_d] lost_game) = 1.
Proof.
  split; [reflexivity|].
  pose proof (restart_within_the_frame pygame_rect_move quiet_entropy
                lost_game [KEYDOWN K_s; KEYDOWN K_d] eq_refl) as H.
  cbn zeta in H. destruct H as (_ & _ & _ & _ & _ & Ht). exact Ht.
Defined.

(** X15. No pedestrian appears during the first 199 frames of the
    program: whatever the keys pressed, as long as fewer than
    [PEDESTRIAN_SPAWN_RATE_MIN] frames have run, the list of pedestrians is
    empty, the score is 0, the lives are 3 and the game is running. *)
Theorem quiet_start rect_move entropy batches :
  Z.of_nat (length batches) < PEDESTRIAN_SPAWN_RATE_MIN →
  let g := main_loop rect_move entropy batches (initial_game entropy) in
  pedestrians g = [] ∧ score g = 0 ∧ lives g = 3 ∧ game_over g = false.
Proof.
  intros Hlen g.
  assert (∀ bs g0,
            fresh_game (Z.of_nat (length bs)) g0 →
            fresh_game 0 (main_loop rect_move entropy bs g0)) as Hloop.
  { induction bs as [|events bs IH]; intros g0 Hg0.
    - done.
    - cbn [main_loop]. cbn [length] in Hg0. rewrite Nat2Z.inj_succ in Hg0.
      destruct (running g0).
      + apply IH. unfold frame.
        apply fresh_game_game_logic; [lia|].
        apply fresh_game_handle_events.
        by replace (Z.of_nat (length bs) + 1) with (Z.succ (Z.of_nat (length bs)))
          by lia.
      + unfold fresh_game in *. destruct_and!. repeat split; try done. lia. }
  assert (fresh_game (Z.of_nat (length batches)) (initial_game entropy))
    as Hinit.
  { unfold fresh_game. cbn.
    pose proof (random_randint_range PEDESTRIAN_SPAWN_RATE_MIN
                  PEDESTRIAN_SPAWN_RATE_MAX (entropy 1%nat)) as Hr.
    unfold PEDESTRIAN_SPAWN_RATE_MIN, PEDESTRIAN_SPAWN_RATE_MAX in *.
    repeat split; try done; lia. }
  destruct (Hloop _ _ Hinit) as (Hs & Hl & Hp & Hrun & _). done.
Qed.

Lemma quiet_start_witness :
  Z.of_nat (length [[KEYDOWN K_d]; []; [KEYDOWN K_w; QUIT]; []])
  < PEDESTRIAN_SPAWN_RATE_MIN
  ∧ pedestrians
      (main_loop pygame_rect_move quiet_entropy
         [[KEYDOWN K_d]; []; [KEYDOWN K_w; QUIT]; []]
         (initial_game quiet_entropy)) = [].
Proof.
  assert (Z.of_nat (length [[KEYDOWN K_d]; []; [KEYDOWN K_w; QUIT]; []])
          < PEDESTRIAN_SPAWN_RATE_MIN) as Hlen by reflexivity.
  split; [exact Hlen|].
  pose proof (quiet_start pygame_rect_move quiet_entropy
                [[KEYDOWN K_d]; []; [KEYDOWN K_w; QUIT]; []] Hlen) as H.
  cbn zeta in H. destruct H as (Hp & _). exact Hp.
Defined.

(** ** A game that is over *)

(** X16. A game that is over stays as it is for as long as no restart key
    is pressed: through any number of frames whose batches hold no restart
    key, the score, the lives, the player, the pedestrians, the spawn timer
    and delay and the random cursor do not change. *)
Theorem game_over_stays_frozen rect_move entropy batches g :
  game_over g = true →
  Forall (λ events, existsb is_restart events = false) batches →
  same_simulation g (main_loop rect_move entropy batches g).
Proof.
  intros Hover Hall. revert g Hover.
  induction Hall as [|events batches Hev _ IH]; intros g Hover.
  - unfold same_simulation. by repeat split.
  - cbn [main_loop]. destruct (running g);
      [|unfold same_simulation; by repeat split].
    pose proof (handle_events_frozen entropy events g Hover Hev) as Hsame.
    assert (game_over (handle_events entropy events g) = true) as Hover'.
    { destruct Hsame as (_ & _ & _ & _ & _ & -> & _). done. }
    assert (frame rect_move entropy events g
            = handle_events entropy events g) as Hframe
      by (unfold frame; by rewrite game_logic_over).
    specialize (IH (frame rect_move entropy events g)).
    rewrite Hframe in *. specialize (IH Hover').
    unfold same_simulation in *. destruct_and!. repeat split; congruence.
Qed.

Lemma game_over_stays_frozen_witness :
  game_over lost_game = true
  ∧ Forall (λ events, existsb is_restart events = false)
      [[KEYDOWN K_a]; []; [KEYDOWN K_other; KEYDOWN K_s]]
  ∧ same_simulation lost_game
      (main_loop pygame_rect_move quiet_entropy
         [[KEYDOWN K_a]; []; [KEYDOWN K_other; KEYDOWN K_s]] lost_game).
Proof.
  assert (Forall (λ events, existsb is_restart events = false)
            [[KEYDOWN K_a]; []; [KEYDOWN K_other; KEYDOWN K_s]]) as Hall
    by (repeat constructor).
  split; [reflexivity|]. split; [exact Hall|].
  exact (game_over_stays_frozen pygame_rect_move quiet_entropy
           [[KEYDOWN K_a]; []; [KEYDOWN K_other; KEYDOWN K_s]] lost_game
           eq_refl Hall).
Defined.
